(** * The album store of [main.go]: three SQL statements behind three functions

    [main.go] opens one MySQL connection and runs three operations on the
    table [album]: [albumsByArtist], [albumByID] and [addAlbum].  This file
    embeds the program in Rocq and proves the properties its specification
    states about it.

    The program's own code is embedded function by function.  The packages
    it calls ([database/sql], the MySQL driver, [fmt], [log], [os]) and the
    database server are not part of the repository; they are modelled in the
    first half of the file, as far as the program uses them:

    - the server holds the table as a list of tuples in storage order and
      an AUTO_INCREMENT counter, and understands exactly the three statements
      the program prepares (any other text is a syntax error); text
      comparison in [WHERE artist = ?] is exact (a binary collation) and the
      price column stores a [float32] unchanged;
    - the three data columns may hold NULL, which is how a row fails to
      decode: [Scan] assigns the columns from left to right and stops at the
      first it cannot convert;
    - every way the connection can fail is a field of [Conn]; a connection
      with no field set never fails;
    - every call that reaches the driver, and every line printed, is appended
      to the trace of the [World]. *)

From Stdlib Require Import ZArith List String Ascii Bool Lia.
From Stdlib Require Import DecimalString DecimalZ DecimalPos.
Import ListNotations.

Local Open Scope Z_scope.
Local Open Scope string_scope.

(** ** Go values *)

(** [float32], by its IEEE-754 binary32 bit pattern.  The program stores and
    loads prices and never computes with them. *)
Definition float32 := Z.

(** [type Album struct { ID int64; Title string; Artist string; Price float32 }] *)
Record Album := mkAlbum {
  ID : Z;
  Title : string;
  Artist : string;
  Price : float32
}.

(** The zero value of [Album], what [var alb Album] declares. *)
Definition zeroAlbum : Album := mkAlbum 0 EmptyString EmptyString 0.

Definition set_ID (a : Album) (v : Z) : Album :=
  mkAlbum v (Title a) (Artist a) (Price a).
Definition set_Title (a : Album) (v : string) : Album :=
  mkAlbum (ID a) v (Artist a) (Price a).
Definition set_Artist (a : Album) (v : string) : Album :=
  mkAlbum (ID a) (Title a) v (Price a).
Definition set_Price (a : Album) (v : float32) : Album :=
  mkAlbum (ID a) (Title a) (Artist a) v.

(** A Go slice is either [nil] or a (possibly empty) sequence of elements;
    [var albums []Album] declares the nil slice. *)
Inductive slice (A : Type) : Type :=
| nil_slice
| mk_slice (l : list A).
Arguments nil_slice {A}.
Arguments mk_slice {A} l.

Definition elems {A : Type} (s : slice A) : list A :=
  match s with
  | nil_slice => []
  | mk_slice l => l
  end.

Definition len {A : Type} (s : slice A) : Z := Z.of_nat (List.length (elems s)).

(** [append(s, x)]: never nil. *)
Definition append {A : Type} (s : slice A) (x : A) : slice A :=
  mk_slice (elems s ++ [x])%list.

(** The slice Go builds by appending the elements of [l] to the nil slice. *)
Definition slice_of {A : Type} (l : list A) : slice A :=
  match l with
  | [] => nil_slice
  | _ :: _ => mk_slice l
  end.

(** Go's [error] values, as far as the program can tell them apart: the
    sentinel [sql.ErrNoRows], compared with [==], and every other error, of
    which only the message is observed.  A nil error is [None]. *)
Inductive error : Type :=
| ErrNoRows
| errorString (msg : string).

Definition Error (e : error) : string :=
  match e with
  | ErrNoRows => "sql: no rows in result set"
  | errorString msg => msg
  end.

Definition is_ErrNoRows (e : error) : bool :=
  match e with
  | ErrNoRows => true
  | errorString _ => false
  end.

(** The outcome of a call that returns [(T, error)] with exactly one of the
    two set. *)
Inductive result (A : Type) : Type :=
| Ok (a : A)
| Err (e : error).
Arguments Ok {A} a.
Arguments Err {A} e.

(** ** The database server and the connection *)

(** A stored row of [album]: the primary key, never NULL, and three data
    columns. *)
Record Tuple := mkTuple {
  col_id : Z;
  col_title : option string;
  col_artist : option string;
  col_price : option float32
}.

(** The arguments bound to the placeholders of a statement. *)
Inductive value : Type :=
| VInt (z : Z)
| VText (s : string)
| VFloat (f : float32).

(** [mysql.Config], the fields [main] sets. *)
Record Config := mkConfig {
  User : string;
  Passwd : string;
  Net : string;
  Addr : string;
  DBName : string;
  AllowNativePasswords : bool
}.

(** The failures of the connection.  [iter_err = Some (n, msg)] breaks every
    cursor after it has delivered [n] rows. *)
Record Conn := mkConn {
  open_err : option string;
  ping_err : option string;
  query_err : option string;
  iter_err : option (nat * string);
  exec_err : option string;
  lastid_err : option string
}.

(** What a [Printf] prints, unrendered. *)
Inductive printed : Type :=
| PNothing
| PAlbums (albums : slice Album)
| PAlbum (alb : Album)
| PInt (z : Z).

Inductive Event : Type :=
| EvOpen (driverName : string) (cfg : Config)
| EvPing
| EvQuery (stmt : string) (args : list value)
| EvExec (stmt : string) (args : list value)
| EvClose
| EvStdout (format : string) (v : printed)
| EvFatal (e : error).

Record World := mkWorld {
  env : string -> string;
  conn : Conn;
  table : list Tuple;
  auto_increment : Z;
  trace : list Event
}.

(** ** State passing *)

Definition M (A : Type) : Type := World -> A * World.

Definition ret {A : Type} (a : A) : M A := fun w => (a, w).

Definition bind {A B : Type} (m : M A) (k : A -> M B) : M B :=
  fun w => k (fst (m w)) (snd (m w)).

Notation "x <- m ;; k" := (bind m (fun x => k))
  (at level 61, m at next level, right associativity).
Notation "' pat <- m ;; k" := (bind m (fun x => match x with pat => k end))
  (at level 61, pat pattern, m at next level, right associativity).

Definition log (ev : Event) : M unit :=
  fun w => (tt, mkWorld (env w) (conn w) (table w) (auto_increment w)
                        (trace w ++ [ev])%list).

Definition get_conn : M Conn := fun w => (conn w, w).
Definition get_table : M (list Tuple) := fun w => (table w, w).

Definition as_error (m : option string) : option error :=
  option_map errorString m.

(** ** Package [fmt] *)

(** [strconv.Quote], which renders the verb [%q].  Its result depends on
    Unicode's tables of printable characters, so the program is embedded
    over any implementation of it. *)
Class Quoter : Type := Quote : string -> string.

Section Program.

Context {quoter : Quoter}.

Inductive operand : Type :=
| OInt (z : Z)
| OStr (s : string)
| OErr (e : error).

(** [%d] of an [int64]. *)
Definition fmt_d (z : Z) : string := NilZero.string_of_int (Z.to_int z).

Definition bad_verb (c : ascii) : string :=
  String "%" (String "!" (String c "(BADVERB)")).

(** One verb applied to one operand, for the verbs and operand kinds that
    the program and [database/sql] use; other combinations are marked
    without Go's rendering of the operand. *)
Definition verb (c : ascii) (o : operand) : string :=
  match o with
  | OInt z =>
      if (Ascii.eqb c "d" || Ascii.eqb c "v")%bool then fmt_d z
      else bad_verb c
  | OStr s =>
      if Ascii.eqb c "q" then Quote s
      else if (Ascii.eqb c "s" || Ascii.eqb c "v")%bool then s
      else bad_verb c
  | OErr e =>
      if Ascii.eqb c "q" then Quote (Error e)
      else if (Ascii.eqb c "v" || Ascii.eqb c "w" || Ascii.eqb c "s")%bool
      then Error e
      else bad_verb c
  end.

Fixpoint Sprintf (format : string) (args : list operand) : string :=
  match format with
  | EmptyString =>
      match args with
      | [] => EmptyString
      | _ :: _ => "%!(EXTRA)"
      end
  | String c rest =>
      if Ascii.eqb c "%" then
        match rest with
        | EmptyString => "%!(NOVERB)"
        | String v rest' =>
            if Ascii.eqb v "%" then String "%" (Sprintf rest' args)
            else
              match args with
              | [] => String "%" (String "!" (String v "(MISSING)"))
                        ++ Sprintf rest' []
              | o :: args' => verb v o ++ Sprintf rest' args'
              end
        end
      else String c (Sprintf rest args)
  end.

(** [fmt.Errorf]: a new error whose message is the formatted text. *)
Definition Errorf (format : string) (args : list operand) : error :=
  errorString (Sprintf format args).

(** ** Package [database/sql] over the MySQL driver *)

(** [*sql.Rows]: the rows the cursor will still deliver, and the error
    [rows.Err()] reports once [rows.Next()] has returned false. *)
Record sql_Rows := mkRows {
  pending : list Tuple;
  lasterr : option error
}.

(** [*sql.Row], as [QueryRow] builds it: the rows of the query, or its
    error, deferred until [Scan]. *)
Definition sql_Row : Type := result sql_Rows.

(** [*sql.Result] of the driver. *)
Record sql_Result := mkResult { last_insert_id : Z }.

Definition artist_is (name : string) (t : Tuple) : bool :=
  match col_artist t with
  | Some a => String.eqb a name
  | None => false
  end.

Definition id_is (k : Z) (t : Tuple) : bool := Z.eqb (col_id t) k.

(** The rows a SELECT statement of the program yields, in storage order. *)
Definition select (stmt : string) (args : list value) (tbl : list Tuple)
  : option (list Tuple) :=
  if String.eqb stmt "SELECT * FROM album WHERE artist = ?" then
    match args with
    | [VText name] => Some (filter (artist_is name) tbl)
    | _ => None
    end
  else if String.eqb stmt "SELECT * FROM album WHERE id = ?" then
    match args with
    | [VInt k] => Some (filter (id_is k) tbl)
    | _ => None
    end
  else None.

(** The row an INSERT statement of the program stores, given its key. *)
Definition insert (stmt : string) (args : list value) : option (Z -> Tuple) :=
  if String.eqb stmt
       "INSERT INTO album (title, artist, price) VALUES (?, ?, ?)" then
    match args with
    | [VText t; VText a; VFloat p] =>
        Some (fun id => mkTuple id (Some t) (Some a) (Some p))
    | _ => None
    end
  else None.

Definition syntax_error : error :=
  errorString "Error 1064 (42000): You have an error in your SQL syntax".

(** The cursor over the result set [rs] of a query on connection [c]. *)
Definition cursor (c : Conn) (rs : list Tuple) : sql_Rows :=
  match iter_err c with
  | None => mkRows rs None
  | Some (n, msg) => mkRows (firstn n rs) (Some (errorString msg))
  end.

(** [sql.Open] *)
Definition sql_Open (driverName : string) (cfg : Config) : M (option error) :=
  _ <- log (EvOpen driverName cfg) ;;
  c <- get_conn ;;
  ret (as_error (open_err c)).

(** [db.Ping] *)
Definition db_Ping : M (option error) :=
  _ <- log EvPing ;;
  c <- get_conn ;;
  ret (as_error (ping_err c)).

(** [db.Query] *)
Definition db_Query (stmt : string) (args : list value) : M (result sql_Rows) :=
  _ <- log (EvQuery stmt args) ;;
  c <- get_conn ;;
  tbl <- get_table ;;
  match query_err c with
  | Some msg => ret (Err (errorString msg))
  | None =>
      match select stmt args tbl with
      | None => ret (Err syntax_error)
      | Some rs => ret (Ok (cursor c rs))
      end
  end.

(** [rows.Close], on a cursor that has not been read to its end: the driver
    reads what is left of the result set, and the error that breaks the
    cursor, if there is one, is the error of the close. *)
Definition Rows_Close (rows : sql_Rows) : M (option error) :=
  _ <- log EvClose ;;
  ret (lasterr rows).

(** The error [rows.Scan] wraps around a NULL it cannot assign. *)
Definition scan_error (index : Z) (name kind : string) : error :=
  Errorf "sql: Scan error on column index %d, name %q: %w"
         [OInt index; OStr name;
          OErr (Errorf "converting NULL to %s is unsupported" [OStr kind])].

(** [rows.Scan(&alb.ID, &alb.Title, &alb.Artist, &alb.Price)] on the current
    row [t]: the columns are assigned in order, and the first that cannot be
    converted ends the call with what has been assigned so far. *)
Definition Rows_Scan (t : Tuple) (alb : Album) : Album * option error :=
  let alb := set_ID alb (col_id t) in
  match col_title t with
  | None => (alb, Some (scan_error 1 "title" "string"))
  | Some v =>
      let alb := set_Title alb v in
      match col_artist t with
      | None => (alb, Some (scan_error 2 "artist" "string"))
      | Some v =>
          let alb := set_Artist alb v in
          match col_price t with
          | None => (alb, Some (scan_error 3 "price" "float32"))
          | Some v => (set_Price alb v, None)
          end
      end
  end.

(** [db.QueryRow] *)
Definition db_QueryRow (stmt : string) (args : list value) : M sql_Row :=
  db_Query stmt args.

(** [row.Scan(&alb.ID, &alb.Title, &alb.Artist, &alb.Price)]: the error of
    the query if it failed; the error of the cursor, or [ErrNoRows] if it
    reports none, when it delivers no row; else the first row is scanned, and
    when it decodes the call ends with [return r.rows.Close()], the error of
    the close.  The cursor is closed once: the deferred [r.rows.Close()]
    finds it closed after that explicit one, and is the only close on the
    other paths, where its error is dropped. *)
Definition Row_Scan (r : sql_Row) (alb : Album) : M (Album * option error) :=
  match r with
  | Err e => ret (alb, Some e)
  | Ok rows =>
      match pending rows with
      | [] =>
          _ <- Rows_Close rows ;;
          match lasterr rows with
          | Some e => ret (alb, Some e)
          | None => ret (alb, Some ErrNoRows)
          end
      | t :: _ =>
          let (alb, err) := Rows_Scan t alb in
          closeErr <- Rows_Close rows ;;
          match err with
          | Some e => ret (alb, Some e)
          | None => ret (alb, closeErr)
          end
      end
  end.

(** [db.Exec] *)
Definition db_Exec (stmt : string) (args : list value) : M (result sql_Result) :=
  _ <- log (EvExec stmt args) ;;
  c <- get_conn ;;
  match exec_err c with
  | Some msg => ret (Err (errorString msg))
  | None =>
      match insert stmt args with
      | None => ret (Err syntax_error)
      | Some row =>
          fun w =>
            let id := auto_increment w in
            (Ok (mkResult id),
             mkWorld (env w) (conn w) (table w ++ [row id])%list (id + 1)
                     (trace w))
      end
  end.

(** [result.LastInsertId] *)
Definition Result_LastInsertId (r : sql_Result) : M (Z * option error) :=
  c <- get_conn ;;
  match lastid_err c with
  | Some msg => ret (0, Some (errorString msg))
  | None => ret (last_insert_id r, None)
  end.

(** ** Packages [os], [fmt] and [log]: the process *)

Definition os_Getenv (key : string) : M string := fun w => (env w key, w).

Definition newline : string := String (ascii_of_nat 10) EmptyString.

Definition fmt_Println (s : string) : M unit :=
  log (EvStdout (s ++ newline) PNothing).

Definition fmt_Printf (format : string) (v : printed) : M unit :=
  log (EvStdout format v).

(** [log.Fatal]: the error is reported and the process exits with status 1. *)
Definition log_Fatal (e : error) : M Z :=
  _ <- log (EvFatal e) ;;
  ret 1.

(** ** The program *)

(** The loop [for rows.Next() { ... }] of [albumsByArtist] over the rows the
    cursor delivers: [Err] is the early return out of the function, [Ok] the
    slice accumulated when the cursor is exhausted. *)
Fixpoint albumsByArtist_loop (name : string) (rows : list Tuple)
         (albums : slice Album) : result (slice Album) :=
  match rows with
  | [] => Ok albums
  | t :: rows' =>
      let alb := zeroAlbum in
      let (alb, err) := Rows_Scan t alb in
      match err with
      | Some err => Err (Errorf "albumsByArtist %q: %v" [OStr name; OErr err])
      | None => albumsByArtist_loop name rows' (append albums alb)
      end
  end.

(** [func albumsByArtist(name string) ([]Album, error)] *)
Definition albumsByArtist (name : string) : M (slice Album * option error) :=
  let albums : slice Album := nil_slice in
  q <- db_Query "SELECT * FROM album WHERE artist = ?" [VText name] ;;
  match q with
  | Err err =>
      ret (nil_slice, Some (Errorf "albumsByArtist %q: %v" [OStr name; OErr err]))
  | Ok rows =>
      let res :=
        match albumsByArtist_loop name (pending rows) albums with
        | Err e => (nil_slice, Some e)
        | Ok albums =>
            match lasterr rows with
            | Some err =>
                (nil_slice,
                 Some (Errorf "albumsByArtist %q: %v" [OStr name; OErr err]))
            | None => (albums, None)
            end
        end in
      (* defer rows.Close() *)
      _ <- Rows_Close rows ;;
      ret res
  end.

(** [func albumByID(id int64) (Album, error)] *)
Definition albumByID (id : Z) : M (Album * option error) :=
  let alb := zeroAlbum in
  row <- db_QueryRow "SELECT * FROM album WHERE id = ?" [VInt id] ;;
  '(alb, err) <- Row_Scan row alb ;;
  match err with
  | Some err =>
      if is_ErrNoRows err then
        ret (alb, Some (Errorf "albumsById %d: no such album" [OInt id]))
      else
        ret (alb, Some (Errorf "albumsById %d: %v" [OInt id; OErr err]))
  | None => ret (alb, None)
  end.

(** [func addAlbum(alb Album) (int64, error)] *)
Definition addAlbum (alb : Album) : M (Z * option error) :=
  x <- db_Exec "INSERT INTO album (title, artist, price) VALUES (?, ?, ?)"
               [VText (Title alb); VText (Artist alb); VFloat (Price alb)] ;;
  match x with
  | Err err => ret (0, Some (Errorf "addAlbum: %v" [OErr err]))
  | Ok result =>
      '(id, err) <- Result_LastInsertId result ;;
      match err with
      | Some err => ret (0, Some (Errorf "addAlbum: %v" [OErr err]))
      | None => ret (id, None)
      end
  end.

(** The [float32] nearest to 49.99. *)
Definition price_49_99 : float32 := 0x4247f5c3.

(** [func main()]; the value is the exit status of the process. *)
Definition main : M Z :=
  user <- os_Getenv "DBUSER" ;;
  passwd <- os_Getenv "DBPASS" ;;
  let cfg := mkConfig user passwd "tcp" "127.0.0.1:3306" "recordings" true in
  err <- sql_Open "mysql" cfg ;;
  match err with
  | Some err => log_Fatal err
  | None =>
  pingErr <- db_Ping ;;
  match pingErr with
  | Some pingErr => log_Fatal pingErr
  | None =>
  _ <- fmt_Println "Connected!" ;;
  '(albums, err) <- albumsByArtist "John Coltrane" ;;
  match err with
  | Some err => log_Fatal err
  | None =>
  _ <- fmt_Printf ("Albums found: %v" ++ newline) (PAlbums albums) ;;
  '(alb, err) <- albumByID 2 ;;
  match err with
  | Some err => log_Fatal err
  | None =>
  _ <- fmt_Printf ("Album found: %v" ++ newline) (PAlbum alb) ;;
  '(albID, err) <- addAlbum (mkAlbum 0 "The Modern Sound of Betty Carter"
                                     "Betty Carter" price_49_99) ;;
  match err with
  | Some err => log_Fatal err
  | None =>
  _ <- fmt_Printf ("ID of added album: %v" ++ newline) (PInt albID) ;;
  ret 0
  end end end end end.

(** ** Database states and failures *)

(** [w] after the events [evs], the database untouched. *)
Definition logged (w : World) (evs : list Event) : World :=
  mkWorld (env w) (conn w) (table w) (auto_increment w) (trace w ++ evs)%list.

(** The row that stores a record. *)
Definition tuple_of (a : Album) : Tuple :=
  mkTuple (ID a) (Some (Title a)) (Some (Artist a)) (Some (Price a)).

(** No column of the row is NULL. *)
Definition decodable (t : Tuple) : bool :=
  match col_title t, col_artist t, col_price t with
  | Some _, Some _, Some _ => true
  | _, _, _ => false
  end.

Definition has_artist (name : string) (a : Album) : bool :=
  String.eqb (Artist a) name.

Definition has_id (id : Z) (a : Album) : bool := Z.eqb (ID a) id.

(** The table of [w] stores exactly the records [recs], in this order. *)
Definition holds (w : World) (recs : list Album) : Prop :=
  table w = map tuple_of recs.

(** Queries, and inserts, on the connection of [w] do not fail. *)
Definition queries_ok (w : World) : Prop :=
  query_err (conn w) = None /\ iter_err (conn w) = None.

Definition inserts_ok (w : World) : Prop :=
  exec_err (conn w) = None /\ lastid_err (conn w) = None.

(** The rows the cursors of the two queries deliver on [w]. *)
Definition delivered_by_artist (name : string) (w : World) : list Tuple :=
  pending (cursor (conn w) (filter (artist_is name) (table w))).

Definition delivered_by_id (id : Z) (w : World) : list Tuple :=
  pending (cursor (conn w) (filter (id_is id) (table w))).

(** The cursor-level failures of [albumsByArtist name] on [w], each with the
    message of the error the driver reports: the query cannot be opened; a
    delivered row, the first of its kind, does not decode; every delivered
    row decodes and the check after the loop finds the cursor broken. *)
Inductive cursor_failure (name : string) (w : World) : string -> Prop :=
| fail_open (msg : string) :
    query_err (conn w) = Some msg ->
    cursor_failure name w msg
| fail_decode (pre post : list Tuple) (t : Tuple) (alb : Album) (e : error) :
    query_err (conn w) = None ->
    delivered_by_artist name w = (pre ++ t :: post)%list ->
    forallb decodable pre = true ->
    Rows_Scan t zeroAlbum = (alb, Some e) ->
    cursor_failure name w (Error e)
| fail_check (n : nat) (msg : string) :
    query_err (conn w) = None ->
    iter_err (conn w) = Some (n, msg) ->
    forallb decodable (delivered_by_artist name w) = true ->
    cursor_failure name w msg.

(** The failures of [albumByID id] on [w] other than finding no row, each
    with the message of the error [row.Scan] returns: the query failed; the
    cursor broke before it delivered a row; the row does not decode. *)
Inductive lookup_failure (id : Z) (w : World) : string -> Prop :=
| lookup_open (msg : string) :
    query_err (conn w) = Some msg ->
    lookup_failure id w msg
| lookup_cursor (n : nat) (msg : string) :
    query_err (conn w) = None ->
    iter_err (conn w) = Some (n, msg) ->
    delivered_by_id id w = [] ->
    lookup_failure id w msg
| lookup_decode (t : Tuple) (rest : list Tuple) (alb : Album) (e : error) :
    query_err (conn w) = None ->
    delivered_by_id id w = t :: rest ->
    Rows_Scan t zeroAlbum = (alb, Some e) ->
    lookup_failure id w (Error e).

(** The failures of [addAlbum] on [w], each with the message of the
    driver's error: at the execute step, or at the id-retrieval step. *)
Inductive insert_failure (w : World) : string -> Prop :=
| insert_exec (msg : string) :
    exec_err (conn w) = Some msg ->
    insert_failure w msg
| insert_lastid (msg : string) :
    exec_err (conn w) = None ->
    lastid_err (conn w) = Some msg ->
    insert_failure w msg.

(** The invariant of AUTO_INCREMENT: every key in the table is below the
    counter. *)
Definition keys_below (w : World) : Prop :=
  forall t : Tuple, In t (table w) -> col_id t < auto_increment w.

(** [albumByID id], [n] times in a row; the results in order. *)
Fixpoint albumByID_times (n : nat) (id : Z) : M (list (Album * option error)) :=
  match n with
  | O => ret []
  | S n' =>
      r <- albumByID id ;;
      rs <- albumByID_times n' id ;;
      ret (r :: rs)
  end.

(** [addAlbum] on each of [albs] in turn; the results in order. *)
Fixpoint addAlbums (albs : list Album) : M (list (Z * option error)) :=
  match albs with
  | [] => ret []
  | alb :: albs' =>
      r <- addAlbum alb ;;
      rs <- addAlbums albs' ;;
      ret (r :: rs)
  end.

(** The events in which a statement reaches the database. *)
Definition issues_statement (ev : Event) : bool :=
  match ev with
  | EvQuery _ _ | EvExec _ _ => true
  | _ => false
  end.

(** The events [db.Query] and the close of its cursor leave in the trace:
    the cursor is closed if, and only if, the query opened one. *)
Definition query_events (stmt : string) (args : list value) (w : World)
  : list Event :=
  EvQuery stmt args ::
  match query_err (conn w) with
  | Some _ => []
  | None => [EvClose]
  end.

(** The record [alb] as the table stores it under the key [key]. *)
Definition stored (key : Z) (alb : Album) : Album :=
  mkAlbum key (Title alb) (Artist alb) (Price alb).

Definition is_fatal (ev : Event) : bool :=
  match ev with
  | EvFatal _ => true
  | _ => false
  end.

Definition is_exec (ev : Event) : bool :=
  match ev with
  | EvExec _ _ => true
  | _ => false
  end.

(** The connection parameters [main] builds in the environment of [w]. *)
Definition main_cfg (w : World) : Config :=
  mkConfig (env w "DBUSER") (env w "DBPASS") "tcp" "127.0.0.1:3306"
           "recordings" true.

End Program.

(** ** Example databases *)

(** [strconv.Quote] on printable ASCII text that holds no quote and no
    backslash: the text between two double quotes. *)
Definition quote_plain : Quoter :=
  fun s => String (ascii_of_nat 34) (s ++ String (ascii_of_nat 34) EmptyString).

(** A connection on which nothing fails. *)
Definition healthy : Conn := mkConn None None None None None None.

(** A server that refuses the connection, and one that refuses to write. *)
Definition unreachable : Conn :=
  mkConn None (Some "dial tcp 127.0.0.1:3306: connect: connection refused")
         None None None None.

Definition read_only : Conn :=
  mkConn None None None None
         (Some "Error 1290 (HY000): The MySQL server is running with the --read-only option")
         None.


Definition blue_train : Album :=
  mkAlbum 1 "Blue Train" "John Coltrane" 0x4263f5c3.
Definition giant_steps : Album :=
  mkAlbum 2 "Giant Steps" "John Coltrane" 0x427ff5c3.
Definition jeru : Album :=
  mkAlbum 3 "Jeru" "Gerry Mulligan" 0x418feb85.
Definition sarah_vaughan : Album :=
  mkAlbum 4 "Sarah Vaughan" "Sarah Vaughan" 0x420beb85.
Definition betty_carter : Album :=
  mkAlbum 0 "The Modern Sound of Betty Carter" "Betty Carter" price_49_99.

Definition catalogue : list Album :=
  [blue_train; giant_steps; jeru; sarah_vaughan].

Definition no_env : string -> string := fun _ => EmptyString.

(** The catalogue on a healthy connection. *)
Definition shop : World :=
  mkWorld no_env healthy (map tuple_of catalogue) 5 [].

(** The same, the price of album 2 being NULL. *)
Definition shop_unpriced : World :=
  mkWorld no_env healthy
          [tuple_of blue_train;
           mkTuple 2 (Some "Giant Steps") (Some "John Coltrane") None;
           tuple_of jeru; tuple_of sarah_vaughan]
          5 [].

(** A server that drops the connection once the first row has arrived. *)
Definition dropped : Conn :=
  mkConn None None None (Some (1%nat, "invalid connection")) None None.

(** A driver that stores the row and cannot tell its key. *)
Definition no_last_id : Conn :=
  mkConn None None None None None (Some "LastInsertId is not supported").

(** The catalogue on the connection [c]. *)
Definition shop_on (c : Conn) : World :=
  mkWorld no_env c (map tuple_of catalogue) 5 [].

(** The error [rows.Scan] reports on the NULL price of album 2. *)
Definition null_price : error :=
  scan_error (quoter := quote_plain) 3 "price" "float32".

(** * Properties *)

Section Properties.

Context {quoter : Quoter}.

(** ** Facts about the model *)

Lemma append_empty (s : string) : s ++ EmptyString = s.
Proof.
  induction s as [|c s IH]; simpl; [reflexivity | now rewrite IH].
Qed.

(** [%d] renders different keys differently: a message that holds
    [fmt_d id] names [id]. *)
Lemma to_int_not_nil (z : Z) :
  Z.to_int z <> Decimal.Pos Decimal.Nil /\ Z.to_int z <> Decimal.Neg Decimal.Nil.
Proof.
  destruct z as [|p|p]; simpl; split; try discriminate;
    intros H; injection H as H; now apply (Unsigned.to_uint_nonnil p).
Qed.

Lemma fmt_d_inj (a b : Z) : fmt_d a = fmt_d b -> a = b.
Proof.
  unfold fmt_d. intros H. apply DecimalZ.to_int_inj.
  destruct (to_int_not_nil a) as [Ha Ha'], (to_int_not_nil b) as [Hb Hb'].
  pose proof (NilZero.isi _ Ha Ha') as Ia.
  pose proof (NilZero.isi _ Hb Hb') as Ib.
  rewrite H in Ia. rewrite Ia in Ib. now injection Ib.
Qed.

(** The messages the program's calls of [fmt.Errorf] build. *)
Lemma Errorf_albumsByArtist (name : string) (err : error) :
  Errorf "albumsByArtist %q: %v" [OStr name; OErr err]
  = errorString ("albumsByArtist " ++ Quote name ++ ": " ++ Error err).
Proof.
  unfold Errorf. cbn. now rewrite append_empty.
Qed.

Lemma Errorf_not_found (id : Z) :
  Errorf "albumsById %d: no such album" [OInt id]
  = errorString ("albumsById " ++ fmt_d id ++ ": no such album").
Proof.
  reflexivity.
Qed.

Lemma Errorf_albumByID (id : Z) (err : error) :
  Errorf "albumsById %d: %v" [OInt id; OErr err]
  = errorString ("albumsById " ++ fmt_d id ++ ": " ++ Error err).
Proof.
  unfold Errorf. cbn. now rewrite append_empty.
Qed.

Lemma Errorf_addAlbum (err : error) :
  Errorf "addAlbum: %v" [OErr err] = errorString ("addAlbum: " ++ Error err).
Proof.
  unfold Errorf. cbn. now rewrite append_empty.
Qed.

Lemma logged_logged (w : World) (evs evs' : list Event) :
  logged (logged w evs) evs' = logged w (evs ++ evs')%list.
Proof.
  unfold logged; simpl. now rewrite app_assoc.
Qed.

Lemma log_logged (ev : Event) (w : World) : log ev w = (tt, logged w [ev]).
Proof. reflexivity. Qed.

(** [db.Query] on the two SELECT statements of the program. *)
Lemma db_Query_run (stmt : string) (args : list value) (w : World) :
  db_Query stmt args w =
  (match query_err (conn w) with
   | Some msg => Err (errorString msg)
   | None =>
       match select stmt args (table w) with
       | None => Err syntax_error
       | Some rs => Ok (cursor (conn w) rs)
       end
   end,
   logged w [EvQuery stmt args]).
Proof.
  unfold db_Query, bind, get_conn, get_table, ret. simpl.
  destruct (query_err (conn w)); [reflexivity|].
  destruct (select stmt args (table w)); reflexivity.
Qed.

Lemma albumsByArtist_run (name : string) (w : World) :
  albumsByArtist name w =
  match query_err (conn w) with
  | Some msg =>
      ((nil_slice,
        Some (Errorf "albumsByArtist %q: %v" [OStr name; OErr (errorString msg)])),
       logged w [EvQuery "SELECT * FROM album WHERE artist = ?" [VText name]])
  | None =>
      let rows := cursor (conn w) (filter (artist_is name) (table w)) in
      (match albumsByArtist_loop name (pending rows) nil_slice with
       | Err e => (nil_slice, Some e)
       | Ok albums =>
           match lasterr rows with
           | Some err =>
               (nil_slice,
                Some (Errorf "albumsByArtist %q: %v" [OStr name; OErr err]))
           | None => (albums, None)
           end
       end,
       logged w [EvQuery "SELECT * FROM album WHERE artist = ?" [VText name];
                 EvClose])
  end.
Proof.
  unfold albumsByArtist, bind. rewrite db_Query_run. simpl fst; simpl snd.
  destruct (query_err (conn w)); [reflexivity|].
  change (select "SELECT * FROM album WHERE artist = ?" [VText name] (table w))
    with (Some (filter (artist_is name) (table w))).
  unfold Rows_Close, bind, ret, log, logged. cbn [fst snd].
  cbn [env conn table auto_increment trace]. now rewrite <- app_assoc.
Qed.

Lemma albumByID_run (id : Z) (w : World) :
  albumByID id w =
  match query_err (conn w) with
  | Some msg =>
      ((zeroAlbum,
        Some (Errorf "albumsById %d: %v" [OInt id; OErr (errorString msg)])),
       logged w [EvQuery "SELECT * FROM album WHERE id = ?" [VInt id]])
  | None =>
      let rows := cursor (conn w) (filter (id_is id) (table w)) in
      (match pending rows with
       | [] =>
           match lasterr rows with
           | Some err =>
               (zeroAlbum,
                Some (if is_ErrNoRows err
                      then Errorf "albumsById %d: no such album" [OInt id]
                      else Errorf "albumsById %d: %v" [OInt id; OErr err]))
           | None =>
               (zeroAlbum,
                Some (Errorf "albumsById %d: no such album" [OInt id]))
           end
       | t :: _ =>
           match snd (Rows_Scan t zeroAlbum) with
           | Some err =>
               (fst (Rows_Scan t zeroAlbum),
                Some (if is_ErrNoRows err
                      then Errorf "albumsById %d: no such album" [OInt id]
                      else Errorf "albumsById %d: %v" [OInt id; OErr err]))
           | None =>
               match lasterr rows with
               | Some err =>
                   (fst (Rows_Scan t zeroAlbum),
                    Some (if is_ErrNoRows err
                          then Errorf "albumsById %d: no such album" [OInt id]
                          else Errorf "albumsById %d: %v" [OInt id; OErr err]))
               | None => (fst (Rows_Scan t zeroAlbum), None)
               end
           end
       end,
       logged w [EvQuery "SELECT * FROM album WHERE id = ?" [VInt id]; EvClose])
  end.
Proof.
  unfold albumByID, db_QueryRow, bind. rewrite db_Query_run.
  simpl fst; simpl snd.
  destruct (query_err (conn w)); [reflexivity|].
  change (select "SELECT * FROM album WHERE id = ?" [VInt id] (table w))
    with (Some (filter (id_is id) (table w))).
  cbv zeta. unfold Row_Scan. cbn [fst snd].
  destruct (pending (cursor (conn w) (filter (id_is id) (table w))))
    as [|t rest].
  - unfold Rows_Close, bind, ret, log, logged. cbn [fst snd].
    cbn [env conn table auto_increment trace]. rewrite <- app_assoc.
    cbn [app]. destruct (lasterr _) as [e|]; [destruct e|]; reflexivity.
  - destruct (Rows_Scan t zeroAlbum) as [alb [e|]];
      unfold Rows_Close, bind, ret, log, logged; cbn [fst snd];
      cbn [env conn table auto_increment trace]; rewrite <- app_assoc;
      cbn [app].
    + destruct e; reflexivity.
    + destruct (lasterr _) as [e|]; [destruct e|]; reflexivity.
Qed.

Lemma addAlbum_run (alb : Album) (w : World) :
  addAlbum alb w =
  let stmt := "INSERT INTO album (title, artist, price) VALUES (?, ?, ?)" in
  let args := [VText (Title alb); VText (Artist alb); VFloat (Price alb)] in
  match exec_err (conn w) with
  | Some msg =>
      ((0, Some (Errorf "addAlbum: %v" [OErr (errorString msg)])),
       logged w [EvExec stmt args])
  | None =>
      let id := auto_increment w in
      (match lastid_err (conn w) with
       | Some msg => (0, Some (Errorf "addAlbum: %v" [OErr (errorString msg)]))
       | None => (id, None)
       end,
       mkWorld (env w) (conn w)
               (table w ++ [mkTuple id (Some (Title alb)) (Some (Artist alb))
                                    (Some (Price alb))])%list
               (id + 1)
               (trace w ++ [EvExec stmt args])%list)
  end.
Proof.
  unfold addAlbum, db_Exec, bind, get_conn, ret, log. cbn [fst snd conn].
  destruct (exec_err (conn w)); [reflexivity|].
  change (insert _ _) with
    (Some (fun id => mkTuple id (Some (Title alb)) (Some (Artist alb))
                             (Some (Price alb)))).
  cbn [fst snd env conn table auto_increment trace].
  unfold Result_LastInsertId, bind, get_conn, ret. cbn [fst snd conn].
  destruct (lastid_err (conn w)); reflexivity.
Qed.

Lemma Rows_Scan_tuple_of (a : Album) : Rows_Scan (tuple_of a) zeroAlbum = (a, None).
Proof. destruct a; reflexivity. Qed.

Lemma Rows_Scan_ID (t : Tuple) (alb : Album) :
  ID (fst (Rows_Scan t alb)) = col_id t.
Proof.
  unfold Rows_Scan.
  destruct (col_title t), (col_artist t), (col_price t); reflexivity.
Qed.

Lemma Rows_Scan_decodable (t : Tuple) (alb : Album) :
  decodable t = true <-> snd (Rows_Scan t alb) = None.
Proof.
  unfold decodable, Rows_Scan.
  destruct (col_title t), (col_artist t), (col_price t); simpl;
    split; intros H; try reflexivity; discriminate H.
Qed.

Lemma Rows_Scan_ok_inv (t : Tuple) (alb : Album) :
  Rows_Scan t zeroAlbum = (alb, None) -> t = tuple_of alb.
Proof.
  unfold Rows_Scan. destruct t as [i [ti|] [ar|] [pr|]]; cbn;
    intros H; inversion H; reflexivity.
Qed.

Lemma decodable_tuple_of (a : Album) : decodable (tuple_of a) = true.
Proof. reflexivity. Qed.

Lemma filter_artist_tuple_of (name : string) (recs : list Album) :
  filter (artist_is name) (map tuple_of recs)
  = map tuple_of (filter (has_artist name) recs).
Proof.
  induction recs as [|a recs IH]; [reflexivity|].
  simpl. unfold artist_is at 1, has_artist at 1. simpl.
  destruct (String.eqb (Artist a) name); simpl; now rewrite IH.
Qed.

Lemma filter_id_tuple_of (id : Z) (recs : list Album) :
  filter (id_is id) (map tuple_of recs) = map tuple_of (filter (has_id id) recs).
Proof.
  induction recs as [|a recs IH]; [reflexivity|].
  simpl. unfold id_is at 1, has_id at 1. simpl.
  destruct (Z.eqb (ID a) id); simpl; now rewrite IH.
Qed.

(** The loop on rows that all decode: every one is appended, in order. *)
Lemma albumsByArtist_loop_tuples (name : string) (recs : list Album) :
  forall albums : slice Album,
    albumsByArtist_loop name (map tuple_of recs) albums
    = Ok (match recs with
          | [] => albums
          | _ :: _ => mk_slice (elems albums ++ recs)%list
          end).
Proof.
  induction recs as [|a recs IH]; intros albums; [reflexivity|].
  cbn [map albumsByArtist_loop]. rewrite Rows_Scan_tuple_of, IH.
  destruct recs as [|b recs]; [reflexivity|].
  unfold append. cbn [elems]. now rewrite <- app_assoc.
Qed.

Lemma albumsByArtist_loop_decodable (name : string) (rows : list Tuple) :
  forallb decodable rows = true ->
  forall albums : slice Album,
  exists albums' : slice Album,
    albumsByArtist_loop name rows albums = Ok albums'.
Proof.
  induction rows as [|t rows IH]; intros Hd albums.
  - now exists albums.
  - cbn [forallb] in Hd. apply andb_true_iff in Hd as [Ht Hd].
    cbn [albumsByArtist_loop].
    apply (Rows_Scan_decodable t zeroAlbum) in Ht.
    destruct (Rows_Scan t zeroAlbum) as [alb err]. cbn [snd] in Ht. subst err.
    apply IH, Hd.
Qed.

(** The loop on a row that does not decode: it returns out of the function
    with the wrapped error of that row. *)
Lemma albumsByArtist_loop_fails (name : string) (pre post : list Tuple)
      (t : Tuple) (alb : Album) (e : error) :
  forallb decodable pre = true ->
  Rows_Scan t zeroAlbum = (alb, Some e) ->
  forall albums : slice Album,
    albumsByArtist_loop name (pre ++ t :: post)%list albums
    = Err (Errorf "albumsByArtist %q: %v" [OStr name; OErr e]).
Proof.
  intros Hd Ht. induction pre as [|p pre IH]; intros albums.
  - cbn [app albumsByArtist_loop]. now rewrite Ht.
  - cbn [forallb] in Hd. apply andb_true_iff in Hd as [Hp Hd].
    cbn [app albumsByArtist_loop].
    apply (Rows_Scan_decodable p zeroAlbum) in Hp.
    destruct (Rows_Scan p zeroAlbum) as [alb' err]. cbn [snd] in Hp. subst err.
    apply IH, Hd.
Qed.

(** ** [albumsByArtist] *)

(** C1.  On every database state, that is whatever records [recs] the table
    stores and in whatever order, a query that does not fail returns no
    error and the sequence of exactly the records whose artist is [name]:
    every stored record with that artist is in it, and nothing else. *)
Theorem albumsByArtist_exact (name : string) (w : World) (recs : list Album) :
  queries_ok w ->
  holds w recs ->
  snd (fst (albumsByArtist name w)) = None /\
  elems (fst (fst (albumsByArtist name w))) = filter (has_artist name) recs /\
  forall a : Album,
    In a (elems (fst (fst (albumsByArtist name w))))
    <-> In a recs /\ Artist a = name.
Proof.
  intros [Hq Hi] Hrecs.
  assert (Hrun : fst (albumsByArtist name w)
                 = (slice_of (filter (has_artist name) recs), None)).
  { rewrite albumsByArtist_run, Hq. unfold cursor. rewrite Hi.
    cbn [pending lasterr fst]. rewrite Hrecs, filter_artist_tuple_of.
    rewrite albumsByArtist_loop_tuples.
    now destruct (filter (has_artist name) recs). }
  rewrite Hrun. cbn [fst snd].
  assert (He : elems (slice_of (filter (has_artist name) recs))
               = filter (has_artist name) recs).
  { now destruct (filter (has_artist name) recs). }
  rewrite He. split; [reflexivity|]. split; [reflexivity|].
  intros a. rewrite filter_In. unfold has_artist.
  now rewrite String.eqb_eq.
Qed.

(** C5, as amended.  When no row has the artist [name] and the query does not
    fail, [albumsByArtist] returns no error and the nil slice, which has
    length zero: the value of [var albums []Album], never appended to. *)
Theorem albumsByArtist_no_match (name : string) (w : World) :
  queries_ok w ->
  (forall t : Tuple, In t (table w) -> col_artist t <> Some name) ->
  fst (albumsByArtist name w) = (nil_slice, None) /\
  len (fst (fst (albumsByArtist name w))) = 0.
Proof.
  intros [Hq Hi] Hnone.
  assert (Hf : filter (artist_is name) (table w) = []).
  { induction (table w) as [|t tbl IH]; [reflexivity|].
    cbn [filter]. unfold artist_is at 1.
    destruct (col_artist t) as [a|] eqn:Ha.
    - destruct (String.eqb a name) eqn:E.
      + apply String.eqb_eq in E. subst a.
        exfalso. apply (Hnone t); [now left | exact Ha].
      + apply IH. intros t' Ht'. apply Hnone. now right.
    - apply IH. intros t' Ht'. apply Hnone. now right. }
  rewrite albumsByArtist_run, Hq. unfold cursor. rewrite Hi, Hf.
  split; reflexivity.
Qed.

(** C6.  Whatever the input and whichever way the cursor fails (the query
    cannot be opened, a row does not decode, or the check after the loop
    reports an error), [albumsByArtist] returns the nil slice and an error
    whose message names the operation, the quoted input and the cause. *)
Theorem albumsByArtist_failure (name : string) (w : World) (cause : string) :
  cursor_failure name w cause ->
  fst (albumsByArtist name w)
  = (nil_slice,
     Some (errorString ("albumsByArtist " ++ Quote name ++ ": " ++ cause))).
Proof.
  intros H. rewrite albumsByArtist_run.
  destruct H as [msg Hq | pre post t alb e Hq Hrows Hpre Hscan | n msg Hq Hi Hrows].
  - rewrite Hq. cbn [fst]. now rewrite Errorf_albumsByArtist.
  - rewrite Hq. cbn [fst]. unfold delivered_by_artist in Hrows. rewrite Hrows.
    rewrite (albumsByArtist_loop_fails name pre post t alb e Hpre Hscan).
    now rewrite Errorf_albumsByArtist.
  - rewrite Hq. cbn [fst]. unfold delivered_by_artist in Hrows.
    destruct (albumsByArtist_loop_decodable name _ Hrows nil_slice)
      as [albums Hloop].
    rewrite Hloop. unfold cursor. rewrite Hi. cbn [lasterr].
    now rewrite Errorf_albumsByArtist.
Qed.

Lemma first_undecodable (rows : list Tuple) :
  forallb decodable rows = false ->
  exists (pre post : list Tuple) (t : Tuple),
    rows = (pre ++ t :: post)%list /\
    forallb decodable pre = true /\ decodable t = false.
Proof.
  induction rows as [|r rows IH]; intros H; [discriminate H|].
  cbn [forallb] in H. destruct (decodable r) eqn:Hr.
  - destruct (IH H) as (pre & post & t & -> & Hpre & Ht).
    exists (r :: pre), post, t. cbn [forallb]. now rewrite Hr.
  - now exists [], rows, r.
Qed.

(** The three failures are the only ones: every error of [albumsByArtist]
    comes with the nil slice and wraps the cause of one of them. *)
Lemma albumsByArtist_error_cause (name : string) (w : World) (e : error) :
  snd (fst (albumsByArtist name w)) = Some e ->
  fst (fst (albumsByArtist name w)) = nil_slice /\
  exists cause : string,
    cursor_failure name w cause /\
    e = errorString ("albumsByArtist " ++ Quote name ++ ": " ++ cause).
Proof.
  rewrite albumsByArtist_run.
  destruct (query_err (conn w)) as [msg|] eqn:Hq.
  - cbn [fst snd]. rewrite Errorf_albumsByArtist. intros [= <-].
    split; [reflexivity|]. exists msg. split; [now apply fail_open | reflexivity].
  - cbn [fst snd]. fold (delivered_by_artist name w).
    destruct (forallb decodable (delivered_by_artist name w)) eqn:Hd.
    + destruct (albumsByArtist_loop_decodable name _ Hd nil_slice)
        as [albums Hloop].
      rewrite Hloop. unfold cursor.
      destruct (iter_err (conn w)) as [[n msg]|] eqn:Hi; cbn [lasterr fst snd];
        [|discriminate].
      rewrite Errorf_albumsByArtist. intros [= <-].
      split; [reflexivity|]. exists msg.
      split; [now apply (fail_check name w n msg) | reflexivity].
    + destruct (first_undecodable _ Hd) as (pre & post & t & Hrows & Hpre & Ht).
      destruct (Rows_Scan t zeroAlbum) as [alb [e'|]] eqn:Hscan.
      * rewrite Hrows.
        rewrite (albumsByArtist_loop_fails name pre post t alb e' Hpre Hscan).
        cbn [fst snd]. rewrite Errorf_albumsByArtist. intros [= <-].
        split; [reflexivity|]. exists (Error e').
        split; [now apply (fail_decode name w pre post t alb e') | reflexivity].
      * assert (Hn : snd (Rows_Scan t zeroAlbum) = None) by now rewrite Hscan.
        apply Rows_Scan_decodable in Hn. rewrite Hn in Ht. discriminate Ht.
Qed.

(** ** [albumByID] *)

Lemma Rows_Scan_error (t : Tuple) (alb alb' : Album) (e : error) :
  Rows_Scan t alb = (alb', Some e) -> is_ErrNoRows e = false.
Proof.
  unfold Rows_Scan.
  destruct (col_title t), (col_artist t), (col_price t);
    intros H; inversion H; reflexivity.
Qed.

Lemma filter_id_none (id : Z) (tbl : list Tuple) :
  (forall t : Tuple, In t tbl -> col_id t <> id) -> filter (id_is id) tbl = [].
Proof.
  induction tbl as [|t tbl IH]; intros H; [reflexivity|].
  cbn [filter]. unfold id_is at 1.
  destruct (Z.eqb (col_id t) id) eqn:E.
  - apply Z.eqb_eq in E. exfalso. apply (H t); [now left | exact E].
  - apply IH. intros t' Ht'. apply H. now right.
Qed.

Lemma In_firstn {A : Type} (n : nat) (l : list A) (x : A) :
  In x (firstn n l) -> In x l.
Proof.
  revert l. induction n as [|n IH]; intros [|y l] H; simpl in H; try easy.
  destruct H as [H|H]; [now left | right; now apply IH].
Qed.

Lemma delivered_by_id_In (id : Z) (w : World) (t : Tuple) :
  In t (delivered_by_id id w) -> In t (table w) /\ col_id t = id.
Proof.
  unfold delivered_by_id, cursor. intros H.
  assert (Hf : In t (filter (id_is id) (table w))).
  { destruct (iter_err (conn w)) as [[n msg]|]; cbn [pending] in H.
    - revert H. apply In_firstn.
    - exact H. }
  apply filter_In in Hf as [Hin Hid]. split; [exact Hin|].
  now apply Z.eqb_eq.
Qed.


(** Every error of [albumByID] is the not-found error of a query that
    found no row, or wraps the cause of one of the failures listed, or wraps
    the error of closing the cursor after the row has been decoded. *)
Lemma albumByID_error_cause (id : Z) (w : World) (e : error) :
  snd (fst (albumByID id w)) = Some e ->
  (queries_ok w /\ delivered_by_id id w = [] /\
   e = errorString ("albumsById " ++ fmt_d id ++ ": no such album"))
  \/
  (exists cause : string,
      lookup_failure id w cause /\
      e = errorString ("albumsById " ++ fmt_d id ++ ": " ++ cause))
  \/
  (exists (t : Tuple) (rest : list Tuple) (n : nat) (msg : string),
      delivered_by_id id w = t :: rest /\
      decodable t = true /\
      iter_err (conn w) = Some (n, msg) /\
      e = errorString ("albumsById " ++ fmt_d id ++ ": " ++ msg)).
Proof.
  rewrite albumByID_run.
  destruct (query_err (conn w)) as [msg|] eqn:Hq.
  - cbn [fst snd]. rewrite Errorf_albumByID. intros [= <-].
    right. left. exists msg. split; [now apply lookup_open | reflexivity].
  - cbn [fst snd]. fold (delivered_by_id id w).
    destruct (delivered_by_id id w) as [|t rest] eqn:Hrows.
    + unfold cursor. destruct (iter_err (conn w)) as [[n msg]|] eqn:Hi;
        cbn [lasterr is_ErrNoRows snd].
      * rewrite Errorf_albumByID. intros [= <-].
        right. left. exists msg.
        split; [now apply (lookup_cursor id w n msg) | reflexivity].
      * intros [= <-]. left. now repeat split.
    + destruct (Rows_Scan t zeroAlbum) as [alb [e'|]] eqn:Hscan; cbn [fst snd].
      * rewrite (Rows_Scan_error _ _ _ _ Hscan), Errorf_albumByID.
        intros [= <-]. right. left. exists (Error e').
        split; [now apply (lookup_decode id w t rest alb e') | reflexivity].
      * assert (Hd : decodable t = true).
        { apply (Rows_Scan_decodable t zeroAlbum). now rewrite Hscan. }
        unfold cursor. destruct (iter_err (conn w)) as [[n msg]|] eqn:Hi;
          cbn [lasterr is_ErrNoRows snd]; [|discriminate].
        rewrite Errorf_albumByID. intros [= <-].
        right. right. now exists t, rest, n, msg.
Qed.

(** C4.  When the table stores the records [recs], one of them with the key
    [id], and the query does not fail, [albumByID] succeeds and returns a
    stored record whose key is [id]. *)
Theorem albumByID_existing (id : Z) (w : World) (recs : list Album) :
  queries_ok w ->
  holds w recs ->
  (exists a : Album, In a recs /\ ID a = id) ->
  exists alb : Album,
    fst (albumByID id w) = (alb, None) /\ ID alb = id /\ In alb recs.
Proof.
  intros [Hq Hi] Hrecs [a [Ha Hid]].
  rewrite albumByID_run, Hq. unfold cursor. rewrite Hi, Hrecs.
  rewrite filter_id_tuple_of. cbn [pending lasterr fst].
  destruct (filter (has_id id) recs) as [|b l] eqn:Hf.
  - exfalso.
    assert (Hin : In a (filter (has_id id) recs)).
    { apply filter_In. split; [exact Ha|]. now apply Z.eqb_eq. }
    rewrite Hf in Hin. exact Hin.
  - assert (Hb : In b (filter (has_id id) recs)) by (rewrite Hf; now left).
    apply filter_In in Hb as [Hb Hbid]. apply Z.eqb_eq in Hbid.
    exists b. cbn [map]. rewrite Rows_Scan_tuple_of. cbn [fst snd].
    now repeat split.
Qed.

(** C9, as amended.  When [albumByID] returns an error, the record next to it
    is the zero record if no row reached [Scan] (the query failed, or the
    cursor delivered no row: the not-found case and the broken cursor).
    Otherwise it is what [Scan] assigned from the row, under the key [id]:
    if a column failed to decode, the columns before that one, the price
    being zero; if the row decoded and the error is that of closing the
    cursor, the whole record as the table stores it. *)
Theorem albumByID_error_record (id : Z) (w : World) (alb : Album) (e : error) :
  fst (albumByID id w) = (alb, Some e) ->
  (alb = zeroAlbum /\
   (query_err (conn w) <> None \/ delivered_by_id id w = []))
  \/
  (exists (t : Tuple) (rest : list Tuple),
      query_err (conn w) = None /\
      delivered_by_id id w = t :: rest /\
      alb = fst (Rows_Scan t zeroAlbum) /\
      ID alb = id /\
      ((decodable t = false /\ Price alb = 0)
       \/
       (decodable t = true /\ t = tuple_of alb /\
        exists (n : nat) (msg : string),
          iter_err (conn w) = Some (n, msg) /\
          e = errorString ("albumsById " ++ fmt_d id ++ ": " ++ msg)))).
Proof.
  rewrite albumByID_run.
  destruct (query_err (conn w)) as [msg|] eqn:Hq.
  - cbn [fst]. intros H. inversion H. left. split; [reflexivity|].
    left. discriminate.
  - cbn [fst]. fold (delivered_by_id id w).
    destruct (delivered_by_id id w) as [|t rest] eqn:Hrows.
    + intros H. left. split; [|now right].
      destruct (lasterr _); inversion H; reflexivity.
    + intros H. right. exists t, rest.
      assert (Ht : In t (delivered_by_id id w)) by (rewrite Hrows; now left).
      apply delivered_by_id_In in Ht as [_ Hid].
      destruct (Rows_Scan t zeroAlbum) as [alb' [e'|]] eqn:Hscan;
        cbn [fst snd] in H |- *.
      * inversion H as [[Halb He]]. subst alb'.
        assert (Hd : decodable t = false).
        { destruct (decodable t) eqn:Hd; [|reflexivity].
          apply (Rows_Scan_decodable t zeroAlbum) in Hd.
          rewrite Hscan in Hd. discriminate Hd. }
        assert (Hk : ID alb = id).
        { rewrite <- Hid, <- (Rows_Scan_ID t zeroAlbum). now rewrite Hscan. }
        assert (Hp : Price alb = 0).
        { revert Hscan. unfold Rows_Scan.
          destruct (col_title t), (col_artist t), (col_price t);
            intros Hs; inversion Hs; reflexivity. }
        repeat split; try assumption; try reflexivity. now left.
      * assert (Hd : decodable t = true).
        { apply (Rows_Scan_decodable t zeroAlbum). now rewrite Hscan. }
        assert (Hk : ID alb' = id).
        { rewrite <- Hid, <- (Rows_Scan_ID t zeroAlbum). now rewrite Hscan. }
        apply Rows_Scan_ok_inv in Hscan.
        revert H. unfold cursor.
        destruct (iter_err (conn w)) as [[n msg]|] eqn:Hi;
          cbn [lasterr is_ErrNoRows]; [|discriminate].
        rewrite Errorf_albumByID. intros H. inversion H as [[Halb He]].
        subst alb'. repeat split; try assumption; try reflexivity.
        right. repeat split; try assumption. now exists n, msg.
Qed.

(** ** [addAlbum] *)

(** C7.  Whatever the record, when [addAlbum] fails, at the execute step or
    at the id-retrieval step, it returns the key 0, which carries nothing of
    the insert, and an error whose message names the operation and the
    cause. *)
Theorem addAlbum_failure (alb : Album) (w : World) (cause : string) :
  insert_failure w cause ->
  fst (addAlbum alb w) = (0, Some (errorString ("addAlbum: " ++ cause))).
Proof.
  intros H. rewrite addAlbum_run. cbv zeta.
  destruct H as [msg He | msg He Hl].
  - rewrite He. cbn [fst]. now rewrite Errorf_addAlbum.
  - rewrite He, Hl. cbn [fst]. now rewrite Errorf_addAlbum.
Qed.

(** C10.  [addAlbum] does not read the key of its argument: on two records
    with the same title, artist and price it issues the same INSERT, leaves
    the same database and trace, and returns the same result. *)
Theorem addAlbum_ignores_ID (a b : Album) (w : World) :
  Title a = Title b ->
  Artist a = Artist b ->
  Price a = Price b ->
  addAlbum a w = addAlbum b w.
Proof.
  intros Ht Ha Hp. unfold addAlbum. now rewrite Ht, Ha, Hp.
Qed.

Lemma addAlbum_ok (alb : Album) (w : World) :
  inserts_ok w ->
  addAlbum alb w =
  ((auto_increment w, None),
   mkWorld (env w) (conn w)
           (table w ++ [tuple_of (mkAlbum (auto_increment w) (Title alb)
                                          (Artist alb) (Price alb))])%list
           (auto_increment w + 1)
           (trace w ++ [EvExec
              "INSERT INTO album (title, artist, price) VALUES (?, ?, ?)"
              [VText (Title alb); VText (Artist alb); VFloat (Price alb)]])%list).
Proof.
  intros [He Hl]. rewrite addAlbum_run. cbv zeta. now rewrite He, Hl.
Qed.

Lemma addAlbum_keys_below (alb : Album) (w : World) :
  inserts_ok w -> keys_below w -> keys_below (snd (addAlbum alb w)).
Proof.
  intros Hok Hk. rewrite (addAlbum_ok alb w Hok). cbn [snd].
  intros t Ht. cbn [table auto_increment] in *.
  apply in_app_or in Ht as [Ht | [Ht | []]].
  - specialize (Hk t Ht). lia.
  - subst t. cbn. lia.
Qed.

(** After any run of inserts the connection is the same, the invariant holds
    and every key handed out is below the counter. *)
Lemma addAlbums_keys (albs : list Album) :
  forall w : World,
    inserts_ok w -> keys_below w ->
    conn (snd (addAlbums albs w)) = conn w /\
    keys_below (snd (addAlbums albs w)) /\
    auto_increment w <= auto_increment (snd (addAlbums albs w)) /\
    forall k : Z, In k (map fst (fst (addAlbums albs w))) ->
                  k < auto_increment (snd (addAlbums albs w)).
Proof.
  induction albs as [|alb albs IH]; intros w Hok Hk.
  - cbn. repeat split; try assumption; try lia; intros k [].
  - cbn [addAlbums]. unfold bind, ret. cbn [fst snd map].
    pose proof (addAlbum_keys_below alb w Hok Hk) as Hk1.
    assert (Hc1 : conn (snd (addAlbum alb w)) = conn w)
      by now rewrite (addAlbum_ok alb w Hok).
    assert (Hok1 : inserts_ok (snd (addAlbum alb w)))
      by (unfold inserts_ok; now rewrite Hc1).
    assert (Ha1 : auto_increment (snd (addAlbum alb w)) = auto_increment w + 1)
      by now rewrite (addAlbum_ok alb w Hok).
    assert (Hf1 : fst (fst (addAlbum alb w)) = auto_increment w)
      by now rewrite (addAlbum_ok alb w Hok).
    destruct (IH _ Hok1 Hk1) as (Hc & Hkb & Hle & Hkeys).
    repeat split.
    + now rewrite Hc.
    + exact Hkb.
    + lia.
    + intros k [Hk0 | Hin].
      * lia.
      * now apply Hkeys.
Qed.

Lemma albumByID_world (id : Z) (w : World) :
  exists evs : list Event, snd (albumByID id w) = logged w evs.
Proof.
  rewrite albumByID_run. destruct (query_err (conn w)); eexists; reflexivity.
Qed.

Lemma albumByID_times_found (key : Z) (a : Album) (n : nat) :
  forall w : World,
    queries_ok w ->
    filter (id_is key) (table w) = [tuple_of a] ->
    fst (albumByID_times n key w) = repeat (a, None) n.
Proof.
  induction n as [|n IH]; intros w Hok Hf; [reflexivity|].
  cbn [albumByID_times repeat]. unfold bind, ret. cbn [fst snd].
  destruct (albumByID_world key w) as [evs Hw].
  rewrite Hw, IH; [| exact Hok | exact Hf].
  f_equal. destruct Hok as [Hq Hi].
  rewrite albumByID_run, Hq. unfold cursor. rewrite Hi, Hf.
  cbn [pending lasterr fst]. now rewrite Rows_Scan_tuple_of.
Qed.

Lemma filter_id_fresh (key : Z) (tbl : list Tuple) (t : Tuple) :
  (forall t' : Tuple, In t' tbl -> col_id t' < key) ->
  col_id t = key ->
  filter (id_is key) (tbl ++ [t]) = [t].
Proof.
  intros Hlt Hid. rewrite filter_app, filter_id_none.
  - cbn. unfold id_is. apply Z.eqb_eq in Hid. now rewrite Hid.
  - intros t' Ht'. specialize (Hlt t' Ht'). lia.
Qed.

(** C3.  After any run of earlier inserts, on a connection that does not fail
    and a table that respects AUTO_INCREMENT, [addAlbum alb] succeeds with a
    key that no earlier insert returned and no row of the table has; looking
    that key up with [albumByID] returns, any number of times over, the title,
    artist and price of [alb] under the new key, with no error. *)
Theorem addAlbum_albumByID (earlier : list Album) (alb : Album) (w : World) :
  inserts_ok w ->
  queries_ok w ->
  keys_below w ->
  let w1 := snd (addAlbums earlier w) in
  let key := fst (fst (addAlbum alb w1)) in
  snd (fst (addAlbum alb w1)) = None /\
  ~ In key (map fst (fst (addAlbums earlier w))) /\
  (forall t : Tuple, In t (table w1) -> col_id t <> key) /\
  forall n : nat,
    fst (albumByID_times n key (snd (addAlbum alb w1)))
    = repeat (mkAlbum key (Title alb) (Artist alb) (Price alb), None) n.
Proof.
  intros Hins [Hq Hi] Hk w1 key.
  destruct (addAlbums_keys earlier w Hins Hk) as (Hc & Hk1 & _ & Hkeys).
  fold w1 in Hc, Hk1, Hkeys.
  assert (Hins1 : inserts_ok w1) by (unfold inserts_ok; now rewrite Hc).
  assert (Hkey : key = auto_increment w1)
    by (unfold key; now rewrite (addAlbum_ok alb w1 Hins1)).
  repeat split.
  - now rewrite (addAlbum_ok alb w1 Hins1).
  - intros Hin. specialize (Hkeys key Hin). lia.
  - intros t Ht Heq. specialize (Hk1 t Ht). lia.
  - intros n. apply albumByID_times_found.
    + rewrite (addAlbum_ok alb w1 Hins1). unfold queries_ok. cbn [snd conn].
      now rewrite Hc.
    + rewrite (addAlbum_ok alb w1 Hins1). cbn [snd table]. rewrite Hkey.
      apply filter_id_fresh; [exact Hk1 | reflexivity].
Qed.

(** ** [main] *)

Lemma sql_Open_run (driverName : string) (cfg : Config) (w : World) :
  sql_Open driverName cfg w
  = (as_error (open_err (conn w)), logged w [EvOpen driverName cfg]).
Proof. reflexivity. Qed.

Lemma db_Ping_run (w : World) :
  db_Ping w = (as_error (ping_err (conn w)), logged w [EvPing]).
Proof. reflexivity. Qed.

Lemma log_Fatal_run (e : error) (w : World) :
  log_Fatal e w = (1, logged w [EvFatal e]).
Proof. reflexivity. Qed.

(** Each of the three operations begins by sending its statement: a run in
    which no statement reaches the database has called none of them. *)
Lemma operations_issue_statements (w : World) :
  (forall name : string,
      exists evs : list Event,
        trace (snd (albumsByArtist name w)) = (trace w ++ evs)%list /\
        existsb issues_statement evs = true) /\
  (forall id : Z,
      exists evs : list Event,
        trace (snd (albumByID id w)) = (trace w ++ evs)%list /\
        existsb issues_statement evs = true) /\
  (forall alb : Album,
      exists evs : list Event,
        trace (snd (addAlbum alb w)) = (trace w ++ evs)%list /\
        existsb issues_statement evs = true).
Proof.
  repeat split.
  - intros name. rewrite albumsByArtist_run.
    destruct (query_err (conn w)); eexists; split; reflexivity.
  - intros id. rewrite albumByID_run.
    destruct (query_err (conn w)); eexists; split; reflexivity.
  - intros alb. rewrite addAlbum_run. cbv zeta.
    destruct (exec_err (conn w)); eexists; split; reflexivity.
Qed.

(** C8.  When opening the connection or its liveness check fails, [main]
    exits with status 1 after a fatal error, the database is left as it was,
    and no statement has reached it: none of [albumsByArtist], [albumByID]
    and [addAlbum] has been called. *)
Theorem main_halts_before_queries (w : World) :
  open_err (conn w) <> None \/ ping_err (conn w) <> None ->
  fst (main w) = 1 /\
  exists (evs : list Event) (e : error),
    snd (main w) = logged w (evs ++ [EvFatal e])%list /\
    existsb issues_statement evs = false.
Proof.
  intros H.
  cbv beta delta [main bind os_Getenv ret]. cbn [fst snd].
  rewrite sql_Open_run. cbn [fst snd].
  destruct (open_err (conn w)) as [msg|] eqn:Ho; cbn [as_error option_map].
  - rewrite log_Fatal_run, logged_logged. split; [reflexivity|].
    eexists _, _. split; reflexivity.
  - rewrite db_Ping_run. cbn [fst snd conn logged].
    destruct (ping_err (conn w)) as [msg|] eqn:Hp; cbn [as_error option_map].
    + rewrite log_Fatal_run, !logged_logged. split; [reflexivity|].
      eexists [_; _], _. split; reflexivity.
    + exfalso. destruct H as [H|H]; now apply H.
Qed.

(** ** Reading: what the two queries leave behind and what they return *)

Lemma albumsByArtist_snd (name : string) (w : World) :
  snd (albumsByArtist name w)
  = logged w (query_events "SELECT * FROM album WHERE artist = ?"
                           [VText name] w).
Proof.
  rewrite albumsByArtist_run. unfold query_events.
  destruct (query_err (conn w)); reflexivity.
Qed.

Lemma albumByID_snd (id : Z) (w : World) :
  snd (albumByID id w)
  = logged w (query_events "SELECT * FROM album WHERE id = ?" [VInt id] w).
Proof.
  rewrite albumByID_run. unfold query_events.
  destruct (query_err (conn w)); reflexivity.
Qed.

(** The results of the queries depend on the connection and the table only,
    not on what has been logged. *)
Lemma albumsByArtist_logged (name : string) (w : World) (evs : list Event) :
  fst (albumsByArtist name (logged w evs)) = fst (albumsByArtist name w).
Proof.
  rewrite !albumsByArtist_run. cbn [logged conn table].
  destruct (query_err (conn w)); reflexivity.
Qed.

Lemma albumByID_logged (id : Z) (w : World) (evs : list Event) :
  fst (albumByID id (logged w evs)) = fst (albumByID id w).
Proof.
  rewrite !albumByID_run. cbn [logged conn table].
  destruct (query_err (conn w)); reflexivity.
Qed.

Lemma albumsByArtist_holds (name : string) (w : World) (recs : list Album) :
  queries_ok w ->
  holds w recs ->
  fst (albumsByArtist name w) = (slice_of (filter (has_artist name) recs), None).
Proof.
  intros [Hq Hi] Hrecs.
  rewrite albumsByArtist_run, Hq. unfold cursor. rewrite Hi.
  cbn [pending lasterr fst]. rewrite Hrecs, filter_artist_tuple_of.
  rewrite albumsByArtist_loop_tuples.
  now destruct (filter (has_artist name) recs).
Qed.

Lemma hd_filter_find {A : Type} (f : A -> bool) (l : list A) :
  hd_error (filter f l) = find f l.
Proof.
  induction l as [|x l IH]; [reflexivity|].
  cbn [filter find]. now destruct (f x).
Qed.

Lemma albumByID_holds (id : Z) (w : World) (recs : list Album) :
  queries_ok w ->
  holds w recs ->
  fst (albumByID id w)
  = match find (has_id id) recs with
    | Some a => (a, None)
    | None =>
        (zeroAlbum,
         Some (errorString ("albumsById " ++ fmt_d id ++ ": no such album")))
    end.
Proof.
  intros [Hq Hi] Hrecs.
  rewrite albumByID_run, Hq. unfold cursor. rewrite Hi, Hrecs.
  rewrite filter_id_tuple_of. cbn [pending lasterr fst].
  rewrite <- hd_filter_find.
  destruct (filter (has_id id) recs) as [|a l]; [reflexivity|].
  cbn [map hd_error]. now rewrite Rows_Scan_tuple_of.
Qed.

(** X1.  [albumsByArtist] never writes: whatever the name and whatever
    fails, the environment, the connection, the table and the counter are as
    before.  It sends one statement, whose text is fixed and to which the
    name is bound as the parameter, and a query that opened a cursor closes
    it on every path out of the function. *)
Theorem albumsByArtist_read_only (name : string) (w : World) :
  env (snd (albumsByArtist name w)) = env w /\
  conn (snd (albumsByArtist name w)) = conn w /\
  table (snd (albumsByArtist name w)) = table w /\
  auto_increment (snd (albumsByArtist name w)) = auto_increment w /\
  trace (snd (albumsByArtist name w))
  = (trace w ++
     EvQuery "SELECT * FROM album WHERE artist = ?" [VText name] ::
     match query_err (conn w) with
     | Some _ => []
     | None => [EvClose]
     end)%list.
Proof.
  rewrite albumsByArtist_snd. now repeat split.
Qed.

(** X2.  [albumByID] never writes either: it sends one statement, whose
    text is fixed and to which the key is bound, and closes the cursor of a
    query that opened one, found or not. *)
Theorem albumByID_read_only (id : Z) (w : World) :
  env (snd (albumByID id w)) = env w /\
  conn (snd (albumByID id w)) = conn w /\
  table (snd (albumByID id w)) = table w /\
  auto_increment (snd (albumByID id w)) = auto_increment w /\
  trace (snd (albumByID id w))
  = (trace w ++
     EvQuery "SELECT * FROM album WHERE id = ?" [VInt id] ::
     match query_err (conn w) with
     | Some _ => []
     | None => [EvClose]
     end)%list.
Proof.
  rewrite albumByID_snd. now repeat split.
Qed.

(** X3.  On a query that does not fail, the slice [albumsByArtist] returns
    is nil exactly when no stored record has the artist; as soon as one has,
    the slice is allocated and holds the matching records in the order of the
    table. *)
Theorem albumsByArtist_nil_iff (name : string) (w : World) (recs : list Album) :
  queries_ok w ->
  holds w recs ->
  (fst (fst (albumsByArtist name w)) = nil_slice
   <-> forall a : Album, In a recs -> Artist a <> name) /\
  (fst (fst (albumsByArtist name w)) <> nil_slice ->
   fst (fst (albumsByArtist name w))
   = mk_slice (filter (has_artist name) recs)).
Proof.
  intros Hq Hrecs. rewrite (albumsByArtist_holds name w recs Hq Hrecs).
  cbn [fst]. split; [split|].
  - intros Hnil a Ha Heq.
    assert (Hin : In a (filter (has_artist name) recs)).
    { apply filter_In. split; [exact Ha|]. unfold has_artist.
      now apply String.eqb_eq. }
    destruct (filter (has_artist name) recs); [exact Hin | discriminate Hnil].
  - intros Hnone.
    destruct (filter (has_artist name) recs) as [|a l] eqn:Hf; [reflexivity|].
    exfalso.
    assert (Hin : In a (filter (has_artist name) recs)) by (rewrite Hf; now left).
    apply filter_In in Hin as [Ha Hn]. apply (Hnone a Ha).
    now apply String.eqb_eq.
  - intros Hn. destruct (filter (has_artist name) recs); [now elim Hn | reflexivity].
Qed.

(** X4.  On a query that does not fail, [albumByID] returns the first
    stored record that has the key, later ones with the same key being
    ignored, and the not-found error next to the zero record exactly when
    there is none. *)
Theorem albumByID_first_match (id : Z) (w : World) (recs : list Album) :
  queries_ok w ->
  holds w recs ->
  fst (albumByID id w)
  = match find (has_id id) recs with
    | Some a => (a, None)
    | None =>
        (zeroAlbum,
         Some (errorString ("albumsById " ++ fmt_d id ++ ": no such album")))
    end /\
  (snd (fst (albumByID id w)) = None <-> exists a : Album, In a recs /\ ID a = id).
Proof.
  intros Hq Hrecs. rewrite (albumByID_holds id w recs Hq Hrecs).
  split; [reflexivity|].
  destruct (find (has_id id) recs) as [a|] eqn:Hf; cbn [snd].
  - split; [intros _ | reflexivity].
    apply find_some in Hf as [Ha Hid]. exists a. split; [exact Ha|].
    now apply Z.eqb_eq.
  - split; [discriminate|]. intros [a [Ha Hid]]. exfalso.
    pose proof (find_none _ _ Hf a Ha) as Hn. unfold has_id in Hn.
    apply Z.eqb_neq in Hn. now apply Hn.
Qed.

(** ** Writing: what an insert changes and what it leaves alone *)

Lemma addAlbum_snd (alb : Album) (w : World) :
  snd (addAlbum alb w) =
  let ev := EvExec "INSERT INTO album (title, artist, price) VALUES (?, ?, ?)"
                   [VText (Title alb); VText (Artist alb); VFloat (Price alb)] in
  match exec_err (conn w) with
  | Some _ => logged w [ev]
  | None =>
      mkWorld (env w) (conn w)
              (table w ++ [tuple_of (stored (auto_increment w) alb)])%list
              (auto_increment w + 1)
              (trace w ++ [ev])%list
  end.
Proof.
  rewrite addAlbum_run. cbv zeta. destruct (exec_err (conn w)); reflexivity.
Qed.

Lemma addAlbum_fst (alb : Album) (w : World) :
  fst (addAlbum alb w) =
  match exec_err (conn w), lastid_err (conn w) with
  | Some msg, _ => (0, Some (errorString ("addAlbum: " ++ msg)))
  | None, Some msg => (0, Some (errorString ("addAlbum: " ++ msg)))
  | None, None => (auto_increment w, None)
  end.
Proof.
  rewrite addAlbum_run. cbv zeta.
  destruct (exec_err (conn w)); [|destruct (lastid_err (conn w))];
    cbn [fst]; now rewrite ?Errorf_addAlbum.
Qed.

Lemma addAlbum_conn (alb : Album) (w : World) :
  conn (snd (addAlbum alb w)) = conn w.
Proof.
  rewrite addAlbum_snd. cbv zeta. now destruct (exec_err (conn w)).
Qed.

Lemma filter_artist_snoc (name : string) (recs : list Album) (a : Album) :
  filter (has_artist name) (recs ++ [a])
  = (filter (has_artist name) recs
     ++ if String.eqb (Artist a) name then [a] else [])%list.
Proof.
  rewrite filter_app. cbn [filter]. unfold has_artist at 2.
  now destruct (String.eqb (Artist a) name).
Qed.

(** X5.  Insert, then query by artist.  On a connection that does not fail,
    the table after [addAlbum alb] stores the old records followed by [alb]
    under its new key; [albumsByArtist] then returns, for the artist of
    [alb], the albums it returned before followed by the new one, and for
    every other artist what it returned before. *)
Theorem addAlbum_then_albumsByArtist (alb : Album) (name : string) (w : World)
        (recs : list Album) :
  inserts_ok w ->
  queries_ok w ->
  holds w recs ->
  let key := fst (fst (addAlbum alb w)) in
  let w' := snd (addAlbum alb w) in
  holds w' (recs ++ [stored key alb])%list /\
  fst (albumsByArtist name w')
  = (slice_of (filter (has_artist name) recs
               ++ if String.eqb (Artist alb) name then [stored key alb] else [])%list,
     None) /\
  (Artist alb <> name ->
   fst (albumsByArtist name w') = fst (albumsByArtist name w)).
Proof.
  intros [He Hl] Hq Hrecs key w'.
  assert (Hkey : key = auto_increment w).
  { unfold key. now rewrite addAlbum_fst, He, Hl. }
  assert (Hh : holds w' (recs ++ [stored key alb])%list).
  { unfold holds, w'. rewrite addAlbum_snd, He. cbv zeta. cbn [table].
    now rewrite map_app, Hrecs, Hkey. }
  assert (Hq' : queries_ok w').
  { unfold queries_ok, w'. now rewrite addAlbum_conn. }
  assert (Hr : fst (albumsByArtist name w')
               = (slice_of (filter (has_artist name) recs
                            ++ if String.eqb (Artist alb) name
                               then [stored key alb] else [])%list, None)).
  { rewrite (albumsByArtist_holds name w' _ Hq' Hh).
    now rewrite filter_artist_snoc. }
  split; [exact Hh|]. split; [exact Hr|].
  intros Hne. rewrite Hr, (albumsByArtist_holds name w recs Hq Hrecs).
  apply String.eqb_neq in Hne. rewrite Hne. now rewrite app_nil_r.
Qed.

(** X6.  An insert does not disturb the other keys: whatever the connection
    does, [albumByID] on any key but the one the insert takes returns after
    [addAlbum] what it returned before. *)
Theorem addAlbum_keeps_other_keys (alb : Album) (id : Z) (w : World) :
  id <> auto_increment w ->
  fst (albumByID id (snd (addAlbum alb w))) = fst (albumByID id w).
Proof.
  intros Hid. rewrite addAlbum_snd. cbv zeta.
  destruct (exec_err (conn w)); [apply albumByID_logged|].
  rewrite !albumByID_run. cbn [conn table].
  assert (Hf : filter (id_is id)
                 (table w ++ [tuple_of (stored (auto_increment w) alb)])
               = filter (id_is id) (table w)).
  { rewrite filter_app. cbn [filter]. unfold id_is at 2. cbn [tuple_of stored col_id ID].
    destruct (Z.eqb (auto_increment w) id) eqn:E.
    - apply Z.eqb_eq in E. now elim Hid.
    - now rewrite app_nil_r. }
  rewrite Hf. destruct (query_err (conn w)); reflexivity.
Qed.

(** X7.  What a failed insert leaves behind.  When the execute step fails
    the table and the counter are untouched.  When the execute step succeeds
    and the id cannot be retrieved, [addAlbum] reports the error with key 0
    but the row is in the table, under the key the counter had: the insert is
    not undone. *)
Theorem addAlbum_failure_effect (alb : Album) (w : World) :
  (exec_err (conn w) <> None ->
   table (snd (addAlbum alb w)) = table w /\
   auto_increment (snd (addAlbum alb w)) = auto_increment w) /\
  (exec_err (conn w) = None ->
   lastid_err (conn w) <> None ->
   fst (fst (addAlbum alb w)) = 0 /\
   snd (fst (addAlbum alb w)) <> None /\
   table (snd (addAlbum alb w))
   = (table w ++ [tuple_of (stored (auto_increment w) alb)])%list /\
   auto_increment (snd (addAlbum alb w)) = auto_increment w + 1).
Proof.
  split.
  - intros He. rewrite addAlbum_snd. cbv zeta.
    destruct (exec_err (conn w)); [now split | now elim He].
  - intros He Hl. rewrite addAlbum_fst, addAlbum_snd, He. cbv zeta.
    destruct (lastid_err (conn w)) as [msg|]; [|now elim Hl].
    cbn [fst snd table auto_increment]. repeat split. discriminate.
Qed.

(** X8.  An insert keeps the keys of the table in order: if every key is
    below the counter and no key occurs twice, the same holds after
    [addAlbum], whether it succeeds or fails. *)
Theorem addAlbum_keeps_keys_unique (alb : Album) (w : World) :
  keys_below w ->
  NoDup (map col_id (table w)) ->
  keys_below (snd (addAlbum alb w)) /\
  NoDup (map col_id (table (snd (addAlbum alb w)))).
Proof.
  intros Hk Hnd. rewrite addAlbum_snd. cbv zeta.
  destruct (exec_err (conn w)); [now split|].
  split.
  - intros t Ht. cbn [table auto_increment] in *.
    apply in_app_or in Ht as [Ht | [Ht | []]].
    + specialize (Hk t Ht). lia.
    + subst t. cbn. lia.
  - cbn [table]. rewrite map_app. cbn [map tuple_of stored col_id ID].
    apply NoDup_app; [exact Hnd | apply NoDup_cons; [easy | apply NoDup_nil] |].
    intros k Hin [Heq | []]. subst k.
    apply in_map_iff in Hin as [t [Hid Ht]]. specialize (Hk t Ht). lia.
Qed.

(** ** The run of [main] *)

Lemma query_events_logged (stmt : string) (args : list value) (w : World)
      (evs : list Event) :
  query_events stmt args (logged w evs) = query_events stmt args w.
Proof. reflexivity. Qed.

Lemma fmt_Println_run (s : string) (w : World) :
  fmt_Println s w = (tt, logged w [EvStdout (s ++ newline) PNothing]).
Proof. reflexivity. Qed.

Lemma fmt_Printf_run (format : string) (v : printed) (w : World) :
  fmt_Printf format v w = (tt, logged w [EvStdout format v]).
Proof. reflexivity. Qed.

(** Every path through [main]. *)
Lemma main_run (w : World) :
  main w =
  let opened := [EvOpen "mysql" (main_cfg w)] in
  match open_err (conn w) with
  | Some msg => (1, logged w (opened ++ [EvFatal (errorString msg)])%list)
  | None =>
  match ping_err (conn w) with
  | Some msg =>
      (1, logged w (opened ++ [EvPing; EvFatal (errorString msg)])%list)
  | None =>
  let e1 :=
    (opened
     ++ [EvPing; EvStdout ("Connected!" ++ newline) PNothing]
     ++ query_events "SELECT * FROM album WHERE artist = ?"
                     [VText "John Coltrane"] w)%list in
  match fst (albumsByArtist "John Coltrane" w) with
  | (_, Some err) => (1, logged w (e1 ++ [EvFatal err])%list)
  | (albums, None) =>
  let e2 :=
    (e1
     ++ [EvStdout ("Albums found: %v" ++ newline) (PAlbums albums)]
     ++ query_events "SELECT * FROM album WHERE id = ?" [VInt 2] w)%list in
  match fst (albumByID 2 w) with
  | (_, Some err) => (1, logged w (e2 ++ [EvFatal err])%list)
  | (alb, None) =>
  let w3 :=
    logged w (e2 ++ [EvStdout ("Album found: %v" ++ newline) (PAlbum alb)])%list in
  match fst (addAlbum betty_carter w3) with
  | (_, Some err) => (1, logged (snd (addAlbum betty_carter w3)) [EvFatal err])
  | (albID, None) =>
      (0, logged (snd (addAlbum betty_carter w3))
                 [EvStdout ("ID of added album: %v" ++ newline) (PInt albID)])
  end end end end end.
Proof.
  cbv zeta.
  cbv beta delta [main bind os_Getenv ret]. cbn [fst snd].
  rewrite sql_Open_run. cbn [fst snd]. fold (main_cfg w).
  destruct (open_err (conn w)) as [msg|]; cbn [as_error option_map].
  { now rewrite log_Fatal_run, logged_logged. }
  rewrite db_Ping_run. cbn [fst snd conn logged]. fold (logged w [EvOpen "mysql" (main_cfg w)]).
  destruct (ping_err (conn w)) as [msg|]; cbn [as_error option_map].
  { now rewrite log_Fatal_run, !logged_logged. }
  rewrite fmt_Println_run. cbn [fst snd]. rewrite !logged_logged.
  rewrite albumsByArtist_snd, albumsByArtist_logged, query_events_logged.
  rewrite logged_logged.
  destruct (fst (albumsByArtist "John Coltrane" w)) as [albums [err|]].
  { now rewrite log_Fatal_run, logged_logged, <- !app_assoc. }
  rewrite fmt_Printf_run. cbn [fst snd]. rewrite logged_logged.
  rewrite albumByID_snd, albumByID_logged, query_events_logged.
  rewrite logged_logged.
  destruct (fst (albumByID 2 w)) as [alb [err|]].
  { now rewrite log_Fatal_run, logged_logged, <- !app_assoc. }
  rewrite fmt_Printf_run. cbn [fst snd]. rewrite logged_logged.
  rewrite <- !app_assoc. cbn [app].
  fold betty_carter.
  destruct (fst (addAlbum betty_carter _)) as [albID [err|]].
  - now rewrite log_Fatal_run.
  - now rewrite fmt_Printf_run.
Qed.

Lemma addAlbum_fst_logged (alb : Album) (w : World) (evs : list Event) :
  fst (addAlbum alb (logged w evs)) = fst (addAlbum alb w).
Proof. now rewrite !addAlbum_fst. Qed.

Lemma query_events_not_fatal (stmt : string) (args : list value) (w : World) :
  existsb is_fatal (query_events stmt args w) = false.
Proof. unfold query_events. now destruct (query_err (conn w)). Qed.

Lemma query_events_not_exec (stmt : string) (args : list value) (w : World) :
  existsb is_exec (query_events stmt args w) = false.
Proof. unfold query_events. now destruct (query_err (conn w)). Qed.

(** X9.  The whole run when nothing fails.  On a connection without
    failures and a table that stores the records [recs], [alb] being the
    first with key 2, [main] exits with status 0; it has opened and pinged
    the connection, printed the albums of John Coltrane in table order and
    [alb], inserted Betty Carter's album and printed its key; the table has
    gained that one row under the key of the counter. *)
Theorem main_success (w : World) (recs : list Album) (alb : Album) :
  open_err (conn w) = None ->
  ping_err (conn w) = None ->
  queries_ok w ->
  inserts_ok w ->
  holds w recs ->
  find (has_id 2) recs = Some alb ->
  fst (main w) = 0 /\
  table (snd (main w))
  = (table w ++ [tuple_of (stored (auto_increment w) betty_carter)])%list /\
  auto_increment (snd (main w)) = auto_increment w + 1 /\
  trace (snd (main w))
  = (trace w ++
     [EvOpen "mysql" (mkConfig (env w "DBUSER") (env w "DBPASS") "tcp"
                               "127.0.0.1:3306" "recordings" true);
      EvPing;
      EvStdout ("Connected!" ++ newline) PNothing;
      EvQuery "SELECT * FROM album WHERE artist = ?" [VText "John Coltrane"];
      EvClose;
      EvStdout ("Albums found: %v" ++ newline)
               (PAlbums (slice_of (filter (has_artist "John Coltrane") recs)));
      EvQuery "SELECT * FROM album WHERE id = ?" [VInt 2];
      EvClose;
      EvStdout ("Album found: %v" ++ newline) (PAlbum alb);
      EvExec "INSERT INTO album (title, artist, price) VALUES (?, ?, ?)"
             [VText "The Modern Sound of Betty Carter"; VText "Betty Carter";
              VFloat price_49_99];
      EvStdout ("ID of added album: %v" ++ newline) (PInt (auto_increment w))])%list.
Proof.
  intros Ho Hp Hq [He Hl] Hrecs Hfind.
  rewrite main_run. cbv zeta. rewrite Ho, Hp.
  rewrite (albumsByArtist_holds _ w recs Hq Hrecs).
  rewrite (albumByID_holds 2 w recs Hq Hrecs), Hfind.
  rewrite addAlbum_fst_logged, addAlbum_fst, He, Hl.
  rewrite addAlbum_snd. cbn [logged conn]. rewrite He. cbv zeta.
  unfold query_events. destruct Hq as [Hq _]. rewrite Hq.
  cbn [fst snd logged env conn table auto_increment trace].
  repeat split. rewrite <- !app_assoc. reflexivity.
Qed.

(** X10.  No error is swallowed: [main] exits with status 0 exactly when the
    open, the ping, the two queries and the insert all succeed, and with
    status 1 otherwise. *)
Theorem main_exit_status (w : World) :
  (fst (main w) = 0 \/ fst (main w) = 1) /\
  (fst (main w) = 0 <->
   open_err (conn w) = None /\
   ping_err (conn w) = None /\
   snd (fst (albumsByArtist "John Coltrane" w)) = None /\
   snd (fst (albumByID 2 w)) = None /\
   snd (fst (addAlbum betty_carter w)) = None).
Proof.
  rewrite main_run. cbv zeta.
  destruct (open_err (conn w)) as [m|]; cbn [fst].
  { split; [now right|]. split; [discriminate | now intros [H _]]. }
  destruct (ping_err (conn w)) as [m|]; cbn [fst].
  { split; [now right|]. split; [discriminate | now intros (_ & H & _)]. }
  destruct (fst (albumsByArtist "John Coltrane" w)) as [albums [e|]]; cbn [fst snd].
  { split; [now right|]. split; [discriminate | now intros (_ & _ & H & _)]. }
  destruct (fst (albumByID 2 w)) as [alb [e|]]; cbn [fst snd].
  { split; [now right|]. split; [discriminate | now intros (_ & _ & _ & H & _)]. }
  rewrite addAlbum_fst_logged.
  destruct (fst (addAlbum betty_carter w)) as [albID [e|]]; cbn [fst snd].
  { split; [now right|]. split; [discriminate | now intros (_ & _ & _ & _ & H)]. }
  split; [now left|]. split; [now repeat split | reflexivity].
Qed.

(** X11.  A fatal error ends the run: when [main] exits with status 1 the
    last event of its trace is the fatal report and the only one; when it
    exits with status 0 there is none. *)
Theorem main_fatal_last (w : World) :
  exists evs : list Event,
    trace (snd (main w)) = (trace w ++ evs)%list /\
    ((fst (main w) = 0 /\ existsb is_fatal evs = false) \/
     (fst (main w) = 1 /\
      exists (evs' : list Event) (e : error),
        evs = (evs' ++ [EvFatal e])%list /\ existsb is_fatal evs' = false)).
Proof.
  rewrite main_run. cbv zeta.
  destruct (open_err (conn w)) as [m|].
  { eexists. split; [reflexivity|]. right. split; [reflexivity|].
    now eexists _, _. }
  destruct (ping_err (conn w)) as [m|].
  { eexists. split; [reflexivity|]. right. split; [reflexivity|].
    now exists [EvOpen "mysql" (main_cfg w); EvPing], (errorString m). }
  destruct (fst (albumsByArtist "John Coltrane" w)) as [albums [e|]].
  { eexists. split; [reflexivity|]. right. split; [reflexivity|].
    eexists _, e. split; [reflexivity|].
    rewrite !existsb_app, query_events_not_fatal. reflexivity. }
  destruct (fst (albumByID 2 w)) as [alb [e|]].
  { eexists. split; [reflexivity|]. right. split; [reflexivity|].
    eexists _, e. split; [reflexivity|].
    rewrite !existsb_app, !query_events_not_fatal. reflexivity. }
  rewrite addAlbum_snd. cbv zeta. cbn [logged conn table auto_increment trace env].
  destruct (fst (addAlbum betty_carter _)) as [albID [e|]];
    destruct (exec_err (conn w));
    cbn [fst snd logged trace]; rewrite <- !app_assoc;
    (eexists; split; [reflexivity|]).
  1,2: right; split; [reflexivity|]; eexists _, e;
         rewrite !app_assoc; split; [reflexivity|];
         rewrite !existsb_app, !query_events_not_fatal; reflexivity.
  1,2: left; split; [reflexivity|];
         rewrite !existsb_app, !query_events_not_fatal; reflexivity.
Qed.

(** X12.  The insert comes last and only after both queries: when
    [albumsByArtist "John Coltrane"] or [albumByID 2] returns an error,
    [main] exits with status 1, no INSERT has been sent, and the table and
    the counter are as they were. *)
Theorem main_no_insert_after_failed_query (w : World) :
  snd (fst (albumsByArtist "John Coltrane" w)) <> None \/
  snd (fst (albumByID 2 w)) <> None ->
  fst (main w) = 1 /\
  table (snd (main w)) = table w /\
  auto_increment (snd (main w)) = auto_increment w /\
  exists evs : list Event,
    trace (snd (main w)) = (trace w ++ evs)%list /\
    existsb is_exec evs = false.
Proof.
  intros H. rewrite main_run. cbv zeta.
  destruct (open_err (conn w)) as [m|].
  { repeat split. now eexists. }
  destruct (ping_err (conn w)) as [m|].
  { repeat split. now eexists. }
  destruct (fst (albumsByArtist "John Coltrane" w)) as [albums [e|]].
  { repeat split. eexists. split; [reflexivity|].
    rewrite !existsb_app, query_events_not_exec. reflexivity. }
  destruct (fst (albumByID 2 w)) as [alb [e|]].
  { repeat split. eexists. split; [reflexivity|].
    rewrite !existsb_app, !query_events_not_exec. reflexivity. }
  exfalso. destruct H as [H|H]; now apply H.
Qed.

(** X13.  Whatever happens, [main] first opens the connection, with the user
    and the password of the environment as they are (empty when unset; they
    are not checked) and the fixed address and database; it leaves the
    environment and the connection alone, and the table it leaves is the
    one it found, or that one with Betty Carter's album appended under the
    key of the counter. *)
Theorem main_opens_first (w : World) :
  (exists evs : list Event,
      trace (snd (main w))
      = (trace w ++
         EvOpen "mysql" (mkConfig (env w "DBUSER") (env w "DBPASS") "tcp"
                                  "127.0.0.1:3306" "recordings" true)
         :: evs)%list) /\
  env (snd (main w)) = env w /\
  conn (snd (main w)) = conn w /\
  (table (snd (main w)) = table w \/
   table (snd (main w))
   = (table w ++ [tuple_of (stored (auto_increment w) betty_carter)])%list).
Proof.
  rewrite main_run. cbv zeta. unfold main_cfg.
  destruct (open_err (conn w)) as [m|].
  { repeat split; [now eexists | now left]. }
  destruct (ping_err (conn w)) as [m|].
  { repeat split; [now eexists | now left]. }
  destruct (fst (albumsByArtist "John Coltrane" w)) as [albums [e|]].
  { repeat split; [now eexists | now left]. }
  destruct (fst (albumByID 2 w)) as [alb [e|]].
  { repeat split; [now eexists | now left]. }
  rewrite addAlbum_snd. cbv zeta. cbn [logged conn table auto_increment trace env].
  destruct (fst (addAlbum betty_carter _)) as [albID [e|]];
    destruct (exec_err (conn w));
    cbn [fst snd logged trace env conn table]; rewrite <- ?app_assoc;
    (repeat split; [now eexists | (now left) || (now right)]).
Qed.

(** ** Further facts about the two queries *)

Lemma albumsByArtist_loop_Ok_inv (name : string) (rows : list Tuple) :
  forall albums albums' : slice Album,
    albumsByArtist_loop name rows albums = Ok albums' ->
    exists recs : list Album,
      rows = map tuple_of recs /\
      albums' = match recs with
                | [] => albums
                | _ :: _ => mk_slice (elems albums ++ recs)%list
                end.
Proof.
  induction rows as [|t rows IH]; intros albums albums' H.
  - exists []. cbn in H. now inversion H.
  - cbn [albumsByArtist_loop] in H.
    destruct (Rows_Scan t zeroAlbum) as [alb [e|]] eqn:Hscan; [discriminate H|].
    apply Rows_Scan_ok_inv in Hscan. subst t.
    destruct (IH _ _ H) as [recs [-> Heq]].
    exists (alb :: recs). split; [reflexivity|].
    rewrite Heq. destruct recs as [|b recs]; [reflexivity|].
    unfold append. cbn [elems]. now rewrite <- app_assoc.
Qed.

Lemma delivered_by_artist_In (name : string) (w : World) (t : Tuple) :
  In t (delivered_by_artist name w) ->
  In t (table w) /\ col_artist t = Some name.
Proof.
  unfold delivered_by_artist, cursor. intros H.
  assert (Hf : In t (filter (artist_is name) (table w))).
  { destruct (iter_err (conn w)) as [[n msg]|]; cbn [pending] in H.
    - revert H. apply In_firstn.
    - exact H. }
  apply filter_In in Hf as [Hin Ha]. split; [exact Hin|].
  unfold artist_is in Ha. destruct (col_artist t) as [a|]; [|discriminate Ha].
  apply String.eqb_eq in Ha. now subst a.
Qed.

(** X14.  [albumsByArtist] invents nothing: on every table, NULLs included,
    and whatever the connection does, each record in the slice it returns is
    a row of the table, decoded in full, whose artist is the name asked
    for. *)
Theorem albumsByArtist_sound (name : string) (w : World) (a : Album) :
  In a (elems (fst (fst (albumsByArtist name w)))) ->
  In (tuple_of a) (table w) /\ Artist a = name.
Proof.
  rewrite albumsByArtist_run.
  destruct (query_err (conn w)) as [msg|]; cbn [fst]; [intros []|].
  fold (delivered_by_artist name w).
  destruct (albumsByArtist_loop name (delivered_by_artist name w) nil_slice)
    as [albums|e] eqn:Hloop; [|intros []].
  destruct (lasterr _); cbn [fst elems]; [intros []|].
  apply albumsByArtist_loop_Ok_inv in Hloop as [recs [Hrows Halbums]].
  intros Ha.
  assert (Hin : In a recs).
  { rewrite Halbums in Ha. destruct recs; [destruct Ha | exact Ha]. }
  assert (Ht : In (tuple_of a) (delivered_by_artist name w)).
  { rewrite Hrows. now apply in_map. }
  apply delivered_by_artist_In in Ht as [Ht Hart]. split; [exact Ht|].
  cbn in Hart. now inversion Hart.
Qed.

Lemma decodable_tuples (rows : list Tuple) :
  forallb decodable rows = true ->
  exists recs : list Album, rows = map tuple_of recs.
Proof.
  induction rows as [|t rows IH]; intros H; [now exists []|].
  cbn [forallb] in H. apply andb_true_iff in H as [Ht H].
  destruct (IH H) as [recs ->].
  destruct t as [i [ti|] [ar|] [pr|]]; try discriminate Ht.
  now exists (mkAlbum i ti ar pr :: recs).
Qed.

(** X15.  Only the rows asked for are decoded: when the query does not fail
    and every row of the artist has a title and a price, [albumsByArtist]
    succeeds with exactly those rows, whatever NULLs the rows of other
    artists hold. *)
Theorem albumsByArtist_other_rows (name : string) (w : World) :
  queries_ok w ->
  (forall t : Tuple,
      In t (table w) -> col_artist t = Some name -> decodable t = true) ->
  snd (fst (albumsByArtist name w)) = None /\
  map tuple_of (elems (fst (fst (albumsByArtist name w))))
  = filter (artist_is name) (table w).
Proof.
  intros [Hq Hi] Hdec.
  assert (Hall : forallb decodable (filter (artist_is name) (table w)) = true).
  { apply forallb_forall. intros t Ht. apply filter_In in Ht as [Hin Ha].
    apply Hdec; [exact Hin|]. unfold artist_is in Ha.
    destruct (col_artist t) as [a|]; [|discriminate Ha].
    apply String.eqb_eq in Ha. now subst a. }
  destruct (decodable_tuples _ Hall) as [recs Hrecs].
  rewrite albumsByArtist_run, Hq. unfold cursor. rewrite Hi.
  cbn [pending lasterr fst]. rewrite Hrecs, albumsByArtist_loop_tuples.
  cbn [fst snd]. split; [reflexivity|]. now destruct recs.
Qed.

Lemma length_append (s t : string) :
  String.length (s ++ t) = (String.length s + String.length t)%nat.
Proof.
  induction s as [|c s IH]; cbn; [reflexivity | now rewrite IH].
Qed.

Lemma append_inv_tail (s1 s2 t : string) : s1 ++ t = s2 ++ t -> s1 = s2.
Proof.
  revert s2. induction s1 as [|c s1 IH]; intros [|d s2] H; cbn in H.
  - reflexivity.
  - apply (f_equal String.length) in H. cbn in H.
    rewrite length_append in H. lia.
  - apply (f_equal String.length) in H. cbn in H.
    rewrite length_append in H. lia.
  - inversion H. f_equal. now apply IH.
Qed.

(** X16.  The not-found error tells the keys apart: if two lookups that find
    no row, on any two databases, return the same error, they looked for
    the same key. *)
Theorem albumByID_not_found_names_key (id id' : Z) (w w' : World) :
  queries_ok w ->
  queries_ok w' ->
  (forall t : Tuple, In t (table w) -> col_id t <> id) ->
  (forall t : Tuple, In t (table w') -> col_id t <> id') ->
  snd (fst (albumByID id w)) = snd (fst (albumByID id' w')) ->
  id = id'.
Proof.
  intros [Hq Hi] [Hq' Hi'] Hnone Hnone'.
  rewrite !albumByID_run, Hq, Hq'. unfold cursor. rewrite Hi, Hi'.
  rewrite (filter_id_none id _ Hnone), (filter_id_none id' _ Hnone').
  cbn [pending lasterr fst snd]. rewrite !Errorf_not_found.
  intros H. injection H as H.
  apply fmt_d_inj. apply (append_inv_tail _ _ ": no such album").
  cbn in H. exact H.
Qed.

End Properties.

(** * The theorems at work on the example databases *)

(** The albums of John Coltrane in the shop. *)
Lemma albumsByArtist_exact_witness :
  queries_ok shop /\
  holds shop catalogue /\
  elems (fst (fst (albumsByArtist (quoter := quote_plain) "John Coltrane" shop)))
  = [blue_train; giant_steps].
Proof.
  assert (Hq : queries_ok shop) by (split; reflexivity).
  assert (Hh : holds shop catalogue) by reflexivity.
  split; [exact Hq|]. split; [exact Hh|].
  exact (proj1 (proj2 (albumsByArtist_exact (quoter := quote_plain)
                         "John Coltrane" shop catalogue Hq Hh))).
Defined.

(** The shop meets the hypotheses of the theorems. *)
Lemma shop_queries_ok : queries_ok shop.
Proof. split; reflexivity. Defined.

Lemma shop_inserts_ok : inserts_ok shop.
Proof. split; reflexivity. Defined.

Lemma shop_keys_below : keys_below shop.
Proof.
  intros t Ht. cbn in Ht.
  destruct Ht as [<- | [<- | [<- | [<- | []]]]]; reflexivity.
Defined.

Lemma shop_no_nobody :
  forall t : Tuple, In t (table shop) -> col_artist t <> Some "Nobody".
Proof.
  intros t Ht. cbn in Ht.
  destruct Ht as [<- | [<- | [<- | [<- | []]]]]; discriminate.
Defined.

Lemma shop_no_key_9 :
  forall t : Tuple, In t (table shop) -> col_id t <> 9.
Proof.
  intros t Ht. cbn in Ht.
  destruct Ht as [<- | [<- | [<- | [<- | []]]]]; discriminate.
Defined.

(** Nobody's albums in the shop. *)
Lemma albumsByArtist_no_match_witness :
  queries_ok shop /\
  (forall t : Tuple, In t (table shop) -> col_artist t <> Some "Nobody") /\
  fst (albumsByArtist (quoter := quote_plain) "Nobody" shop) = (nil_slice, None) /\
  len (fst (fst (albumsByArtist (quoter := quote_plain) "Nobody" shop))) = 0.
Proof.
  split; [exact shop_queries_ok|]. split; [exact shop_no_nobody|].
  exact (albumsByArtist_no_match (quoter := quote_plain) "Nobody" shop
           shop_queries_ok shop_no_nobody).
Defined.

(** C5 as stated fails: no album of the shop is by "Nobody", the query does
    not fail, and the slice returned is nil, not an empty slice. *)
Lemma albumsByArtist_no_match_is_nil :
  queries_ok shop /\
  (forall t : Tuple, In t (table shop) -> col_artist t <> Some "Nobody") /\
  fst (fst (albumsByArtist (quoter := quote_plain) "Nobody" shop)) = nil_slice /\
  fst (albumsByArtist (quoter := quote_plain) "Nobody" shop)
  <> (mk_slice [], None).
Proof.
  split; [exact shop_queries_ok|]. split; [exact shop_no_nobody|].
  split; [reflexivity | discriminate].
Qed.

(** John Coltrane's albums when the price of one is NULL. *)
Lemma albumsByArtist_failure_witness :
  cursor_failure (quoter := quote_plain) "John Coltrane" shop_unpriced
                 (Error null_price) /\
  fst (albumsByArtist (quoter := quote_plain) "John Coltrane" shop_unpriced)
  = (nil_slice,
     Some (errorString ("albumsByArtist " ++ quote_plain "John Coltrane" ++ ": "
                        ++ Error null_price))).
Proof.
  assert (H : cursor_failure (quoter := quote_plain) "John Coltrane"
                             shop_unpriced (Error null_price)).
  { apply (fail_decode (quoter := quote_plain) "John Coltrane" shop_unpriced
             [tuple_of blue_train] []
             (mkTuple 2 (Some "Giant Steps") (Some "John Coltrane") None)
             (mkAlbum 2 "Giant Steps" "John Coltrane" 0) null_price);
      reflexivity. }
  split; [exact H|].
  exact (albumsByArtist_failure (quoter := quote_plain) "John Coltrane"
           shop_unpriced (Error null_price) H).
Defined.


(** Album 3 of the shop. *)
Lemma albumByID_existing_witness :
  queries_ok shop /\
  holds shop catalogue /\
  (exists a : Album, In a catalogue /\ ID a = 3) /\
  exists alb : Album,
    fst (albumByID (quoter := quote_plain) 3 shop) = (alb, None) /\
    ID alb = 3 /\ In alb catalogue.
Proof.
  assert (Hh : holds shop catalogue) by reflexivity.
  assert (Hex : exists a : Album, In a catalogue /\ ID a = 3).
  { exists jeru. split; [right; right; now left | reflexivity]. }
  split; [exact shop_queries_ok|]. split; [exact Hh|]. split; [exact Hex|].
  exact (albumByID_existing (quoter := quote_plain) 3 shop catalogue
           shop_queries_ok Hh Hex).
Defined.

(** C9 as stated fails: the price of album 2 is NULL, so [albumByID 2]
    returns an error next to a record whose key, title and artist are set. *)
Lemma albumByID_partial_record :
  fst (albumByID (quoter := quote_plain) 2 shop_unpriced)
  = (mkAlbum 2 "Giant Steps" "John Coltrane" 0,
     Some (errorString ("albumsById 2: " ++ Error null_price))) /\
  mkAlbum 2 "Giant Steps" "John Coltrane" 0 <> zeroAlbum.
Proof.
  split; [reflexivity | discriminate].
Qed.

(** Album 2 when the connection drops once its row has arrived: the error
    of the close, next to the whole record. *)
Lemma albumByID_error_record_witness :
  fst (albumByID (quoter := quote_plain) 2 (shop_on dropped))
  = (giant_steps, Some (errorString "albumsById 2: invalid connection")) /\
  ((giant_steps = zeroAlbum /\
    (query_err (conn (shop_on dropped)) <> None \/
     delivered_by_id 2 (shop_on dropped) = []))
   \/
   (exists (t : Tuple) (rest : list Tuple),
       query_err (conn (shop_on dropped)) = None /\
       delivered_by_id 2 (shop_on dropped) = t :: rest /\
       giant_steps = fst (Rows_Scan (quoter := quote_plain) t zeroAlbum) /\
       ID giant_steps = 2 /\
       ((decodable t = false /\ Price giant_steps = 0)
        \/
        (decodable t = true /\ t = tuple_of giant_steps /\
         exists (n : nat) (msg : string),
           iter_err (conn (shop_on dropped)) = Some (n, msg) /\
           errorString "albumsById 2: invalid connection"
           = errorString ("albumsById " ++ fmt_d 2 ++ ": " ++ msg))))).
Proof.
  assert (H : fst (albumByID (quoter := quote_plain) 2 (shop_on dropped))
              = (giant_steps,
                 Some (errorString "albumsById 2: invalid connection")))
    by reflexivity.
  split; [exact H|].
  exact (albumByID_error_record (quoter := quote_plain) 2 (shop_on dropped)
           _ _ H).
Defined.

(** Betty Carter's album is added to the shop under key 5 and looked up
    three times. *)
Lemma addAlbum_albumByID_witness :
  inserts_ok shop /\ queries_ok shop /\ keys_below shop /\
  fst (fst (addAlbum (quoter := quote_plain) betty_carter shop)) = 5 /\
  fst (albumByID_times (quoter := quote_plain) 3 5
         (snd (addAlbum (quoter := quote_plain) betty_carter shop)))
  = repeat (mkAlbum 5 "The Modern Sound of Betty Carter" "Betty Carter"
                    price_49_99, None) 3.
Proof.
  split; [exact shop_inserts_ok|]. split; [exact shop_queries_ok|].
  split; [exact shop_keys_below|]. split; [reflexivity|].
  exact (proj2 (proj2 (proj2
           (addAlbum_albumByID (quoter := quote_plain) [] betty_carter shop
              shop_inserts_ok shop_queries_ok shop_keys_below))) 3%nat).
Defined.

(** The insert on a server that refuses to write. *)
Lemma addAlbum_failure_witness :
  insert_failure (shop_on read_only)
    "Error 1290 (HY000): The MySQL server is running with the --read-only option" /\
  fst (addAlbum (quoter := quote_plain) betty_carter (shop_on read_only))
  = (0, Some (errorString
       "addAlbum: Error 1290 (HY000): The MySQL server is running with the --read-only option")).
Proof.
  assert (H : insert_failure (shop_on read_only)
    "Error 1290 (HY000): The MySQL server is running with the --read-only option")
    by (apply insert_exec; reflexivity).
  split; [exact H|].
  exact (addAlbum_failure (quoter := quote_plain) betty_carter
           (shop_on read_only) _ H).
Defined.

(** The insert of Betty Carter's album with key 0 and with key 77. *)
Lemma addAlbum_ignores_ID_witness :
  addAlbum (quoter := quote_plain) betty_carter shop
  = addAlbum (quoter := quote_plain) (set_ID betty_carter 77) shop.
Proof.
  exact (addAlbum_ignores_ID (quoter := quote_plain) betty_carter
           (set_ID betty_carter 77) shop eq_refl eq_refl eq_refl).
Defined.

(** [main] against a server that refuses the connection. *)
Lemma main_halts_before_queries_witness :
  (open_err (conn (shop_on unreachable)) <> None \/
   ping_err (conn (shop_on unreachable)) <> None) /\
  fst (main (quoter := quote_plain) (shop_on unreachable)) = 1.
Proof.
  assert (H : open_err (conn (shop_on unreachable)) <> None \/
              ping_err (conn (shop_on unreachable)) <> None)
    by (right; discriminate).
  split; [exact H|].
  exact (proj1 (main_halts_before_queries (quoter := quote_plain)
                  (shop_on unreachable) H)).
Defined.

(** * The further properties on the example databases *)

Lemma shop_holds : holds shop catalogue.
Proof. reflexivity. Defined.

(** Gerry Mulligan has an album in the shop: the slice is allocated. *)
Lemma albumsByArtist_nil_iff_witness :
  queries_ok shop /\ holds shop catalogue /\
  fst (fst (albumsByArtist (quoter := quote_plain) "Gerry Mulligan" shop))
  = mk_slice [jeru].
Proof.
  split; [exact shop_queries_ok|]. split; [exact shop_holds|].
  assert (H : fst (fst (albumsByArtist (quoter := quote_plain)
                          "Gerry Mulligan" shop)) <> nil_slice)
    by discriminate.
  exact (proj2 (albumsByArtist_nil_iff (quoter := quote_plain) "Gerry Mulligan"
                  shop catalogue shop_queries_ok shop_holds) H).
Defined.

(** Album 3 of the shop is Jeru. *)
Lemma albumByID_first_match_witness :
  queries_ok shop /\ holds shop catalogue /\
  fst (albumByID (quoter := quote_plain) 3 shop) = (jeru, None).
Proof.
  split; [exact shop_queries_ok|]. split; [exact shop_holds|].
  exact (proj1 (albumByID_first_match (quoter := quote_plain) 3 shop catalogue
                  shop_queries_ok shop_holds)).
Defined.

(** Betty Carter's albums after hers is added to the shop. *)
Lemma addAlbum_then_albumsByArtist_witness :
  inserts_ok shop /\ queries_ok shop /\ holds shop catalogue /\
  fst (albumsByArtist (quoter := quote_plain) "Betty Carter"
         (snd (addAlbum (quoter := quote_plain) betty_carter shop)))
  = (mk_slice [stored 5 betty_carter], None).
Proof.
  split; [exact shop_inserts_ok|]. split; [exact shop_queries_ok|].
  split; [exact shop_holds|].
  exact (proj1 (proj2 (addAlbum_then_albumsByArtist (quoter := quote_plain)
                         betty_carter "Betty Carter" shop catalogue
                         shop_inserts_ok shop_queries_ok shop_holds))).
Defined.

(** Album 3 is found as before once Betty Carter's album is added. *)
Lemma addAlbum_keeps_other_keys_witness :
  3 <> auto_increment shop /\
  fst (albumByID (quoter := quote_plain) 3
         (snd (addAlbum (quoter := quote_plain) betty_carter shop)))
  = fst (albumByID (quoter := quote_plain) 3 shop).
Proof.
  assert (H : 3 <> auto_increment shop) by discriminate.
  split; [exact H|].
  exact (addAlbum_keeps_other_keys (quoter := quote_plain) betty_carter 3 shop H).
Defined.

(** The insert refused by the server, and the insert whose key is lost. *)
Lemma addAlbum_failure_effect_witness :
  table (snd (addAlbum (quoter := quote_plain) betty_carter (shop_on read_only)))
  = table (shop_on read_only) /\
  table (snd (addAlbum (quoter := quote_plain) betty_carter (shop_on no_last_id)))
  = (table (shop_on no_last_id) ++ [tuple_of (stored 5 betty_carter)])%list.
Proof.
  split.
  - assert (H : exec_err (conn (shop_on read_only)) <> None) by discriminate.
    exact (proj1 (proj1 (addAlbum_failure_effect (quoter := quote_plain)
                           betty_carter (shop_on read_only)) H)).
  - assert (H : lastid_err (conn (shop_on no_last_id)) <> None) by discriminate.
    exact (proj1 (proj2 (proj2 (proj2 (addAlbum_failure_effect
             (quoter := quote_plain) betty_carter (shop_on no_last_id))
             eq_refl H)))).
Defined.

(** The keys of the shop stay unique when Betty Carter's album is added. *)
Lemma addAlbum_keeps_keys_unique_witness :
  keys_below shop /\ NoDup (map col_id (table shop)) /\
  NoDup (map col_id (table (snd (addAlbum (quoter := quote_plain)
                                   betty_carter shop)))).
Proof.
  assert (H : NoDup (map col_id (table shop))).
  { cbn. repeat (apply NoDup_cons; [cbn; intuition discriminate|]).
    apply NoDup_nil. }
  split; [exact shop_keys_below|]. split; [exact H|].
  exact (proj2 (addAlbum_keeps_keys_unique (quoter := quote_plain) betty_carter
                  shop shop_keys_below H)).
Defined.

(** [main] in the shop. *)
Lemma main_success_witness :
  open_err (conn shop) = None /\ ping_err (conn shop) = None /\
  queries_ok shop /\ inserts_ok shop /\ holds shop catalogue /\
  find (has_id 2) catalogue = Some giant_steps /\
  fst (main (quoter := quote_plain) shop) = 0.
Proof.
  repeat (split; [reflexivity|]).
  split; [exact shop_queries_ok|]. split; [exact shop_inserts_ok|].
  split; [exact shop_holds|]. split; [reflexivity|].
  exact (proj1 (main_success (quoter := quote_plain) shop catalogue giant_steps
                  eq_refl eq_refl shop_queries_ok shop_inserts_ok shop_holds
                  eq_refl)).
Defined.

(** [main] in the shop where the price of album 2 is NULL. *)
Lemma main_no_insert_after_failed_query_witness :
  (snd (fst (albumsByArtist (quoter := quote_plain) "John Coltrane"
               shop_unpriced)) <> None \/
   snd (fst (albumByID (quoter := quote_plain) 2 shop_unpriced)) <> None) /\
  fst (main (quoter := quote_plain) shop_unpriced) = 1 /\
  table (snd (main (quoter := quote_plain) shop_unpriced)) = table shop_unpriced.
Proof.
  assert (H : snd (fst (albumsByArtist (quoter := quote_plain) "John Coltrane"
                          shop_unpriced)) <> None \/
              snd (fst (albumByID (quoter := quote_plain) 2 shop_unpriced))
              <> None)
    by (right; discriminate).
  split; [exact H|].
  pose proof (main_no_insert_after_failed_query (quoter := quote_plain)
                shop_unpriced H) as R.
  exact (conj (proj1 R) (proj1 (proj2 R))).
Defined.

(** Jeru is among Gerry Mulligan's albums, and is a row of the table. *)
Lemma albumsByArtist_sound_witness :
  In jeru (elems (fst (fst (albumsByArtist (quoter := quote_plain)
                              "Gerry Mulligan" shop)))) /\
  In (tuple_of jeru) (table shop) /\ Artist jeru = "Gerry Mulligan".
Proof.
  assert (H : In jeru (elems (fst (fst (albumsByArtist (quoter := quote_plain)
                                          "Gerry Mulligan" shop)))))
    by (left; reflexivity).
  split; [exact H|].
  exact (albumsByArtist_sound (quoter := quote_plain) "Gerry Mulligan" shop
           jeru H).
Defined.

Lemma shop_unpriced_mulligan :
  forall t : Tuple,
    In t (table shop_unpriced) -> col_artist t = Some "Gerry Mulligan" ->
    decodable t = true.
Proof.
  intros t Ht Ha. cbn in Ht.
  destruct Ht as [<- | [<- | [<- | [<- | []]]]];
    try reflexivity; discriminate Ha.
Defined.

(** Gerry Mulligan's albums where an album of John Coltrane has no price. *)
Lemma albumsByArtist_other_rows_witness :
  queries_ok shop_unpriced /\
  (forall t : Tuple,
      In t (table shop_unpriced) -> col_artist t = Some "Gerry Mulligan" ->
      decodable t = true) /\
  snd (fst (albumsByArtist (quoter := quote_plain) "Gerry Mulligan"
              shop_unpriced)) = None.
Proof.
  assert (Hq : queries_ok shop_unpriced) by (split; reflexivity).
  split; [exact Hq|]. split; [exact shop_unpriced_mulligan|].
  exact (proj1 (albumsByArtist_other_rows (quoter := quote_plain)
                  "Gerry Mulligan" shop_unpriced Hq shop_unpriced_mulligan)).
Defined.

(** Two lookups of key 9, which the shop does not have. *)
Lemma albumByID_not_found_names_key_witness :
  queries_ok shop /\
  (forall t : Tuple, In t (table shop) -> col_id t <> 9) /\
  snd (fst (albumByID (quoter := quote_plain) 9 shop))
  = snd (fst (albumByID (quoter := quote_plain) 9 shop)) /\
  9 = 9.
Proof.
  split; [exact shop_queries_ok|]. split; [exact shop_no_key_9|].
  split; [reflexivity|].
  exact (albumByID_not_found_names_key (quoter := quote_plain) 9 9 shop shop
           shop_queries_ok shop_queries_ok shop_no_key_9 shop_no_key_9
           eq_refl).
Defined.
